(** * Exponential backoff with jitter: a shallow embedding of backoff.go

    The Go package keeps one [Backoff] object (four fields), builds it
    from a list of functional options in a strict ([New]) or a coercing
    ([CoerceNew]) way, and advances it with [computeDelay].

    Go types are modelled as follows.
    - [time.Duration] is an [int64] count of nanoseconds: a [Z] whose
      arithmetic wraps around at 64 bits ([Int64.wrap]).
    - [float64] is IEEE-754 binary64: [spec_float] with precision 53 and
      [emax = 1024], with the operations of the standard library's
      [SpecFloat] (round to nearest, ties to even).  Operations are not
      fused.
    - [error] values are the two concrete kinds the package produces:
      [errors.New] strings and [errors.Join] lists.
    - the receiver object and the global random source of
      [math/rand] are threaded through a small state monad. *)

From Stdlib Require Import ZArith List String Ascii Bool Lia.
From Stdlib Require Import Reals Lra.
From Stdlib Require Import Permutation.
From Stdlib Require Import SpecFloat.

Set Warnings "-register-all".
Import ListNotations.

Open Scope Z_scope.

(** ** 64-bit signed integers *)

Module Int64.

Definition min_int : Z := - 2 ^ 63.
Definition max_int : Z := 2 ^ 63 - 1.

(** Two's complement wrap-around of a mathematical integer. *)
Definition wrap (z : Z) : Z := (z + 2 ^ 63) mod 2 ^ 64 - 2 ^ 63.

Definition in_range (z : Z) : Prop := min_int <= z <= max_int.

Definition in_rangeb (z : Z) : bool := (min_int <=? z) && (z <=? max_int).

(** Go's [a * b] on [int64]. *)
Definition mul (a b : Z) : Z := wrap (a * b).

End Int64.

(** ** time.Duration *)

Definition Duration := Z.

Definition Nanosecond : Duration := 1.
Definition Microsecond : Duration := 1000 * Nanosecond.
Definition Millisecond : Duration := 1000 * Microsecond.
Definition Second : Duration := 1000 * Millisecond.
Definition Minute : Duration := 60 * Second.

(** [Duration.Nanoseconds] is the identity on the underlying [int64]. *)
Definition Nanoseconds (d : Duration) : Z := d.

(** ** float64 *)

Module F64.

Definition prec : Z := 53.
Definition emax : Z := 1024.

Definition float64 := spec_float.

Definition add : float64 -> float64 -> float64 := SFadd prec emax.
Definition sub : float64 -> float64 -> float64 := SFsub prec emax.
Definition mul : float64 -> float64 -> float64 := SFmul prec emax.

Definition ltb : float64 -> float64 -> bool := SFltb.
Definition leb : float64 -> float64 -> bool := SFleb.

(** [x >= y] and [x < y] as Go evaluates them (false on NaN). *)
Definition geb (x y : float64) : bool := leb y x.

Definition valid (x : float64) : bool := valid_binary prec emax x.

(** The literals [0.0], [0.5], [1.0] (all exact). *)
Definition zero : float64 := S754_zero false.
Definition half : float64 := S754_finite false 4503599627370496 (-53).
Definition one : float64 := S754_finite false 4503599627370496 (-52).

(** The literal [0.3]: the binary64 nearest to 3/10,
    5404319552844595 * 2^-54. *)
Definition three_tenths : float64 := S754_finite false 5404319552844595 (-54).

(** [float64(n)] for an integer [n]: rounds to nearest even. *)
Definition of_int (n : Z) : float64 := binary_normalize prec emax n 0 false.

(** [math.Round]: nearest integer, halves away from zero; zeros,
    infinities and NaN are returned as they are. *)
Definition Round (x : float64) : float64 :=
  match x with
  | S754_finite s m e =>
      if 0 <=? e then x
      else
        let k := 2 ^ (- e) in
        let q := Zpos m / k in
        let r := Zpos m mod k in
        let n := if k <=? 2 * r then q + 1 else q in
        match n with
        | Zpos p => binary_round prec emax s p 0
        | _ => S754_zero s
        end
  | _ => x
  end.

(** The integer part of a float (truncation toward zero); [None] for
    infinities and NaN. *)
Definition trunc (x : float64) : option Z :=
  match x with
  | S754_zero _ => Some 0
  | S754_finite s m e =>
      Some (cond_Zopp s (if 0 <=? e then Zpos m * 2 ^ e else Zpos m / 2 ^ (- e)))
  | _ => None
  end.

(** [int(x)] with a 64-bit [int].  The language leaves the result
    implementation-dependent when the truncated value is not
    representable; we take the "integer indefinite" value [-2^63] that
    the amd64 conversion instruction produces. *)
Definition indefinite : Z := Int64.min_int.

Definition to_int (x : float64) : Z :=
  match trunc x with
  | Some n => if Int64.in_rangeb n then n else indefinite
  | None => indefinite
  end.

End F64.

Definition float64 : Type := F64.float64.

(** ** The [error] values of the package *)

Inductive error : Type :=
| errorString (s : string)
| joinError (errs : list error).

Definition errors_New (s : string) : error := errorString s.

(** [errors.Join]: discards nil arguments; nil when nothing is left. *)
Definition errors_Join (errs : list (option error)) : option error :=
  match flat_map (fun e => match e with Some x => [x] | None => [] end) errs with
  | [] => None
  | l => Some (joinError l)
  end.

Definition newline : string := String (ascii_of_nat 10) EmptyString.

(** The [Error()] method: the text of an [errors.New] value; for a
    joined error the texts of its members separated by newlines. *)
Fixpoint Error (e : error) : string :=
  match e with
  | errorString s => s
  | joinError errs =>
      match errs with
      | [] => EmptyString
      | e0 :: rest =>
          (Error e0 ++ String.concat EmptyString
             (map (fun err => newline ++ Error err) rest))%string
      end
  end.

(** The [errors.New] leaves of an error, left to right. *)
Fixpoint leaves (e : error) : list string :=
  match e with
  | errorString s => [s]
  | joinError errs => flat_map leaves errs
  end.

(** ** The Backoff object *)

Record Backoff : Type := mkBackoff {
  delay : Duration;
  baseDelay : Duration;
  expLimit : Duration;
  jitterFactor : float64
}.

Definition set_delay (d : Duration) (b : Backoff) : Backoff :=
  mkBackoff d b.(baseDelay) b.(expLimit) b.(jitterFactor).
Definition set_baseDelay (d : Duration) (b : Backoff) : Backoff :=
  mkBackoff b.(delay) d b.(expLimit) b.(jitterFactor).
Definition set_expLimit (d : Duration) (b : Backoff) : Backoff :=
  mkBackoff b.(delay) b.(baseDelay) d b.(jitterFactor).
Definition set_jitterFactor (f : float64) (b : Backoff) : Backoff :=
  mkBackoff b.(delay) b.(baseDelay) b.(expLimit) f.

Definition defaultInitDelay : Duration := Millisecond * 100.
Definition defaultBaseDelay : Duration := Millisecond * 100.
Definition defaultExpLimit : Duration := Minute * 3.
Definition defaultJitterFactor : float64 := F64.three_tenths.

Definition defaultBackoff : Backoff :=
  {| delay := defaultInitDelay;
     baseDelay := defaultBaseDelay;
     expLimit := defaultExpLimit;
     jitterFactor := defaultJitterFactor |}.

(** ** Functional options

    A [backoffOption] is a closure taking the object by pointer and a
    coercion flag, and returning an error; the pointed-to object is
    passed in and out. *)

Definition backoffOption : Type := Backoff -> bool -> Backoff * option error.

Definition WithInitialDelay (d : Duration) : backoffOption :=
  fun b coerce =>
    if 0 <=? d then (set_delay d b, None)
    else if negb coerce then
      (b, Some (errors_New "the initial delay must be >= 0"))
    else (set_delay 0 b, None).

Definition WithBaseDelay (d : Duration) : backoffOption :=
  fun b coerce =>
    if 0 <? d then (set_baseDelay d b, None)
    else if negb coerce then
      (b, Some (errors_New "the base delay must be > 0"))
    else (b, None).

Definition WithExponentialLimit (d : Duration) : backoffOption :=
  fun b coerce =>
    if 0 <=? d then (set_expLimit d b, None)
    else if negb coerce then
      (b, Some (errors_New "the exponential backoff limit must be >= 0"))
    else (set_expLimit 0 b, None).

Definition WithJitterFactor (jf : float64) : backoffOption :=
  fun b coerce =>
    if F64.geb jf F64.zero && F64.ltb jf F64.one then
      (set_jitterFactor jf b, None)
    else if negb coerce then
      (b, Some (errors_New "the jitterFactor must be in the range [0,1)"))
    else if F64.ltb jf F64.zero then (set_jitterFactor F64.zero b, None)
    else (b, None).

(** ** Constructors *)

(** The loop of [New]: every option is applied, in order, to the same
    object, and its error is joined to the errors so far. *)
Fixpoint New_loop (options : list backoffOption) (b : Backoff)
  (errs : option error) : Backoff * option error :=
  match options with
  | [] => (b, errs)
  | o :: rest =>
      let '(b', err) := o b false in
      New_loop rest b' (errors_Join [errs; err])
  end.

Definition New (options : list backoffOption) : option Backoff * option error :=
  let '(b, errs) := New_loop options defaultBackoff None in
  match errs with
  | Some e => (None, Some e)
  | None => (Some b, None)
  end.

Fixpoint CoerceNew_loop (options : list backoffOption) (b : Backoff) : Backoff :=
  match options with
  | [] => b
  | o :: rest => CoerceNew_loop rest (fst (o b true))
  end.

Definition CoerceNew (options : list backoffOption) : Backoff :=
  CoerceNew_loop options defaultBackoff.

(** ** The receiver and the random source as state

    [computeDelay] mutates the object behind its pointer receiver and
    draws from the global source of [math/rand].  The source is an
    infinite stream of draws with a cursor on the next one. *)

Record RandSource : Type := mkRand {
  stream : nat -> float64;
  drawn : nat
}.

Record World : Type := mkWorld {
  self : Backoff;
  rng : RandSource
}.

Definition M (A : Type) : Type := World -> A * World.

Definition ret {A : Type} (a : A) : M A := fun w => (a, w).

Definition bind {A B : Type} (m : M A) (k : A -> M B) : M B :=
  fun w => let '(a, w') := m w in k a w'.

Declare Scope go_scope.
Delimit Scope go_scope with go.
Notation "x <- m ;; k" := (bind m (fun x => k))
  (at level 61, m at next level, right associativity) : go_scope.
Notation "m ;; k" := (bind m (fun _ => k))
  (at level 61, right associativity) : go_scope.

(** Reading a field of the receiver, and updating the receiver. *)
Definition load {A : Type} (field : Backoff -> A) : M A :=
  fun w => (field (self w), w).

Definition store (upd : Backoff -> Backoff) : M unit :=
  fun w => (tt, mkWorld (upd (self w)) (rng w)).

(** [rand.Float64()]: the next draw of the stream. *)
Definition rand_Float64 : M float64 :=
  fun w =>
    (stream (rng w) (drawn (rng w)),
     mkWorld (self w) (mkRand (stream (rng w)) (S (drawn (rng w))))).

(** ** Methods *)

Definition PeekDelay : M Duration := load delay.

Definition computeDelay : M Duration :=
  (u <- rand_Float64 ;;
   jf <- load jitterFactor ;;
   let j := F64.add F64.one (F64.mul (F64.sub u F64.half) jf) in
   ns <- load delay ;;
   let d := F64.mul (F64.of_int (Nanoseconds ns)) j in
   cur <- load delay ;;
   (if cur =? 0 then
      bd <- load baseDelay ;; store (set_delay bd)
    else
      lim <- load expLimit ;;
      if cur <? lim then store (set_delay (Int64.mul cur 2)) else ret tt) ;;
   ret (F64.to_int (F64.Round d)))%go.

(** [n] rounds of a retry loop that looks at [PeekDelay] and then calls
    [computeDelay]: the list of (nominal, returned) pairs. *)
Fixpoint rounds (n : nat) : M (list (Duration * Duration)) :=
  match n with
  | O => ret []
  | S k =>
      (p <- PeekDelay ;;
       r <- computeDelay ;;
       rest <- rounds k ;;
       ret ((p, r) :: rest))%go
  end.

(** ** Pure views of [computeDelay] *)

(** The jitter multiplier [1.0 + (u - 0.5) * jf]. *)
Definition jitter (u jf : float64) : float64 :=
  F64.add F64.one (F64.mul (F64.sub u F64.half) jf).

(** The value returned for nominal delay [d0]. *)
Definition jittered (u jf : float64) (d0 : Duration) : Duration :=
  F64.to_int (F64.Round (F64.mul (F64.of_int (Nanoseconds d0)) (jitter u jf))).

(** The nominal delay of the next round. *)
Definition grow (d0 base lim : Duration) : Duration :=
  if d0 =? 0 then base
  else if d0 <? lim then Int64.mul d0 2
  else d0.

(** ** Supplied settings

    The option type is unexported, so callers can only build options
    with the four [With...] functions; a configuration is a list of
    such settings. *)

Inductive setting : Type :=
| InitialDelay (d : Duration)
| BaseDelay (d : Duration)
| ExponentialLimit (d : Duration)
| JitterFactor (jf : float64).

Definition option_of (s : setting) : backoffOption :=
  match s with
  | InitialDelay d => WithInitialDelay d
  | BaseDelay d => WithBaseDelay d
  | ExponentialLimit d => WithExponentialLimit d
  | JitterFactor jf => WithJitterFactor jf
  end.

Inductive fieldId : Type := fDelay | fBaseDelay | fExpLimit | fJitterFactor.

Definition field_of (s : setting) : fieldId :=
  match s with
  | InitialDelay _ => fDelay
  | BaseDelay _ => fBaseDelay
  | ExponentialLimit _ => fExpLimit
  | JitterFactor _ => fJitterFactor
  end.

Definition same_field (s t : setting) : bool :=
  match field_of s, field_of t with
  | fDelay, fDelay | fBaseDelay, fBaseDelay
  | fExpLimit, fExpLimit | fJitterFactor, fJitterFactor => true
  | _, _ => false
  end.

(** The constraint of each setting. *)
Definition satisfies (s : setting) : bool :=
  match s with
  | InitialDelay d => 0 <=? d
  | BaseDelay d => 0 <? d
  | ExponentialLimit d => 0 <=? d
  | JitterFactor jf => F64.leb F64.zero jf && F64.ltb jf F64.one
  end.

Definition violates (s : setting) : bool := negb (satisfies s).

(** The message that reports a violated constraint. *)
Definition complaint (s : setting) : string :=
  match s with
  | InitialDelay _ => "the initial delay must be >= 0"
  | BaseDelay _ => "the base delay must be > 0"
  | ExponentialLimit _ => "the exponential backoff limit must be >= 0"
  | JitterFactor _ => "the jitterFactor must be in the range [0,1)"
  end.

(** The invariants of a constructed object. *)
Definition wellformed (b : Backoff) : Prop :=
  0 <= b.(delay) /\ 0 < b.(baseDelay) /\ 0 <= b.(expLimit) /\
  F64.leb F64.zero b.(jitterFactor) = true /\
  F64.ltb b.(jitterFactor) F64.one = true.

(** [n] calls of [PeekDelay] in a row, and [n] calls of [computeDelay]
    in a row, with the values they return. *)
Fixpoint peeks (n : nat) : M (list Duration) :=
  match n with
  | O => ret []
  | S k => (p <- PeekDelay ;; rest <- peeks k ;; ret (p :: rest))%go
  end.

Fixpoint advances (n : nat) : M (list Duration) :=
  match n with
  | O => ret []
  | S k => (r <- computeDelay ;; rest <- advances k ;; ret (r :: rest))%go
  end.

(** The nominal delays seen before each of [n] successive advances. *)
Definition nominals (n : nat) (w : World) : list Duration :=
  map fst (fst (rounds n w)).

(** The messages of the violated settings of a configuration. *)
Definition complaints (l : list setting) : list string :=
  map complaint (filter violates l).

(** [joined lines o]: the accumulated error [o] carries exactly the
    messages [lines], in order, one per line of its text. *)
Definition joined (lines : list string) (o : option error) : Prop :=
  match o with
  | None => lines = []
  | Some e =>
      lines <> [] /\ leaves e = lines /\ Error e = String.concat newline lines
  end.

(** Two objects agree on one field. *)
Definition agree_on (f : fieldId) (b b' : Backoff) : Prop :=
  match f with
  | fDelay => delay b = delay b'
  | fBaseDelay => baseDelay b = baseDelay b'
  | fExpLimit => expLimit b = expLimit b'
  | fJitterFactor => jitterFactor b = jitterFactor b'
  end.

(** The growth law as the specification words it: doubling from the
    base delay, clamped at the limit. *)
Definition clamped_nominal (base lim : Duration) (n : nat) : Duration :=
  match n with
  | O => 0
  | S k => Z.min (base * 2 ^ Z.of_nat k) lim
  end.

(** A source that always draws [u]. *)
Definition constant_source (u : float64) : RandSource := mkRand (fun _ => u) 0.

(** The nominal delay after [i] advances. *)
Definition nominal_at (i : nat) (w : World) : Duration :=
  delay (self (snd (advances i w))).

(** ** The real value of a float *)

Definition bpow (e : Z) : R := powerRZ 2 e.

Definition F2R (x : float64) : R :=
  match x with
  | S754_finite s m e => (IZR (cond_Zopp s (Zpos m)) * bpow e)%R
  | _ => 0%R
  end.

(** Neither an infinity nor NaN. *)
Definition is_finite (x : float64) : bool :=
  match x with
  | S754_zero _ | S754_finite _ _ _ => true
  | _ => false
  end.

(** A well-formed binary64 in [[0,1)]: the range of [rand.Float64]
    and of a valid jitter factor. *)
Definition unit_interval (x : float64) : bool :=
  F64.valid x && F64.leb F64.zero x && F64.ltb x F64.one.

(** The record left by shifting [m] right by [k] bits: the quotient,
    the last bit shifted out, and whether any earlier one was set. *)
Definition shifted (m : Z) (k : nat) : shr_record :=
  match k with
  | O => Build_shr_record m false false
  | S j =>
      Build_shr_record (m / 2 ^ Z.of_nat k) (Z.testbit m (Z.of_nat j))
        (negb (m mod 2 ^ Z.of_nat j =? 0))
  end.

(** [encodes s m2 e1 r]: the float [r] is well formed, has sign [s]
    and magnitude [m2 * 2^e1]. *)
Definition encodes (s : bool) (m2 e1 : Z) (r : float64) : Prop :=
  F64.valid r = true /\
  match r with
  | S754_zero s' => s' = s /\ m2 = 0
  | S754_finite s' m3 e3 => s' = s /\ e1 <= e3 /\ Zpos m3 * 2 ^ (e3 - e1) = m2
  | _ => False
  end.

(** A real number that some binary64 holds exactly. *)
Definition representable (x : R) : Prop :=
  exists M E : Z, -1074 <= E /\ Z.abs M < 2 ^ 53 /\ x = (IZR M * bpow E)%R.

(** [rounding_of x K r]: [r] is a correct rounding of the real [x],
    known to be below [2^K] in magnitude: [r] is a well-formed finite
    float within half a unit in the last place of [x], on the same
    side of zero, and equal to [x] when [x] is representable. *)
Definition rounding_of (x : R) (K : Z) (r : float64) : Prop :=
  F64.valid r = true /\ is_finite r = true /\
  (Rabs (F2R r - x) <= bpow (Z.max (K - 53) (-1074) - 1))%R /\
  (0 <= x -> 0 <= F2R r)%R /\ (x <= 0 -> F2R r <= 0)%R /\
  (representable x -> F2R r = x).

(** ** Coercion as normalisation, and sleeping *)

(** What coercing mode makes of a setting: the valid setting it acts
    as, or nothing when it leaves the object alone. *)
Definition coerced (s : setting) : list setting :=
  match s with
  | InitialDelay d => [InitialDelay (if 0 <=? d then d else 0)]
  | BaseDelay d => if 0 <? d then [s] else []
  | ExponentialLimit d => [ExponentialLimit (if 0 <=? d then d else 0)]
  | JitterFactor jf =>
      if F64.geb jf F64.zero && F64.ltb jf F64.one then [s]
      else if F64.ltb jf F64.zero then [JitterFactor F64.zero]
      else []
  end.

(** The value a setting asks for, compared with an object's field. *)
Definition holds (s : setting) (b : Backoff) : Prop :=
  match s with
  | InitialDelay d => delay b = d
  | BaseDelay d => baseDelay b = d
  | ExponentialLimit d => expLimit b = d
  | JitterFactor jf => jitterFactor b = jf
  end.

(** [time.Sleep]: a negative or zero duration returns immediately;
    otherwise the caller is paused for (at least) the duration.  The
    clock counts the nanoseconds of pause asked for. *)
Definition time_Sleep (d : Duration) (clock : Z) : Z :=
  if 0 <? d then clock + d else clock.

(** [Sleep]: pauses for what [computeDelay] returns. *)
Definition Sleep (p : World * Z) : World * Z :=
  let '(d, w') := computeDelay (fst p) in (w', time_Sleep d (snd p)).

Fixpoint Sleeps (n : nat) (p : World * Z) : World * Z :=
  match n with
  | O => p
  | S k => Sleeps k (Sleep p)
  end.

Definition total (l : list Z) : Z := fold_right Z.add 0 l.

(** A returned delay [r] within 15% of the nominal delay [p], up to
    one time unit. *)
Definition within_15_percent (p r : Duration) : Prop :=
  17 * p - 20 < 20 * r < 23 * p + 20.

(** * Properties *)

(** * Construction *)


Lemma append_empty_r (s : string) : (s ++ "")%string = s.
Proof. induction s as [|c s IH]; simpl; congruence. Qed.

Lemma append_assoc3 (a b c : string) :
  ((a ++ b) ++ c)%string = (a ++ b ++ c)%string.
Proof. induction a as [|x a IH]; simpl; congruence. Qed.

Lemma concat_snoc (sep : string) (l : list string) (x : string) :
  l <> [] ->
  String.concat sep (l ++ [x]) = (String.concat sep l ++ sep ++ x)%string.
Proof.
  induction l as [|y l IH]; intros Hne; [congruence|].
  destruct l as [|z l].
  - reflexivity.
  - change (String.concat sep ((y :: z :: l) ++ [x]))
      with (y ++ sep ++ String.concat sep ((z :: l) ++ [x]))%string.
    rewrite IH by discriminate.
    change (String.concat sep (y :: z :: l))
      with (y ++ sep ++ String.concat sep (z :: l))%string.
    now rewrite !append_assoc3.
Qed.

Lemma joined_Join_nil (lines : list string) (o : option error) :
  joined lines o -> joined lines (errors_Join [o; None]).
Proof.
  destruct o as [e|]; simpl; [|auto].
  intros (Hne & Hl & He). repeat split; auto.
  - now rewrite app_nil_r.
  - now rewrite append_empty_r.
Qed.

Lemma joined_Join_new (lines : list string) (o : option error) (msg : string) :
  joined lines o ->
  joined (lines ++ [msg]) (errors_Join [o; Some (errors_New msg)]).
Proof.
  destruct o as [e|]; simpl.
  - intros (Hne & Hl & He). repeat split.
    + destruct lines; simpl; congruence.
    + now rewrite Hl.
    + rewrite concat_snoc by assumption. now rewrite He.
  - intros ->. repeat split; try discriminate.
    now rewrite append_empty_r.
Qed.


(** What one option does in strict mode, by its constraint. *)
Lemma option_of_strict (s : setting) (b : Backoff) :
  option_of s b false =
  if satisfies s then (fst (option_of s b true), None)
  else (b, Some (errors_New (complaint s))).
Proof.
  destruct s as [d|d|d|jf]; simpl;
    unfold WithInitialDelay, WithBaseDelay, WithExponentialLimit,
      WithJitterFactor, F64.geb; simpl.
  - now destruct (0 <=? d).
  - now destruct (0 <? d).
  - now destruct (0 <=? d).
  - now destruct (F64.leb F64.zero jf && F64.ltb jf F64.one).
Qed.

Lemma complaints_cons (s : setting) (l : list setting) :
  complaints (s :: l) =
  if satisfies s then complaints l else complaint s :: complaints l.
Proof. unfold complaints, violates; simpl. now destruct (satisfies s). Qed.

Lemma New_loop_joined (l : list setting) :
  forall (b : Backoff) (errs : option error) (lines : list string),
  joined lines errs ->
  joined (lines ++ complaints l) (snd (New_loop (map option_of l) b errs)).
Proof.
  induction l as [|s l IH]; intros b errs lines HJ.
  - unfold complaints; simpl. now rewrite app_nil_r.
  - simpl. rewrite option_of_strict, complaints_cons.
    destruct (satisfies s).
    + apply (IH _ _ lines). now apply joined_Join_nil.
    + replace (lines ++ complaint s :: complaints l)
        with ((lines ++ [complaint s]) ++ complaints l)
        by now rewrite <- app_assoc.
      apply IH. now apply joined_Join_new.
Qed.

Lemma complaints_nil_iff (l : list setting) :
  complaints l = [] <-> forallb satisfies l = true.
Proof.
  unfold complaints, violates.
  induction l as [|s l IH]; simpl; [tauto|].
  destruct (satisfies s); simpl; [exact IH|].
  split; discriminate.
Qed.

Lemma New_loop_fst (l : list setting) :
  forall (b : Backoff) (errs : option error),
  forallb satisfies l = true ->
  New_loop (map option_of l) b errs =
  (CoerceNew_loop (map option_of l) b,
   snd (New_loop (map option_of l) b errs)).
Proof.
  induction l as [|s l IH]; intros b errs Hall; simpl; [reflexivity|].
  simpl in Hall. apply andb_true_iff in Hall as [Hs Hl].
  rewrite option_of_strict, Hs. simpl. now apply IH.
Qed.

Lemma complaints_nonempty_iff (l : list setting) :
  complaints l <> [] <-> exists s, In s l /\ violates s = true.
Proof.
  unfold complaints. split.
  - intros Hne. destruct (filter violates l) as [|s f] eqn:Hf; [now elim Hne|].
    exists s. apply filter_In. rewrite Hf. now left.
  - intros (s & Hin & Hv) Habs.
    assert (Hs : In s (filter violates l)) by (apply filter_In; auto).
    destruct (filter violates l); [exact Hs | discriminate].
Qed.

(** C3.  Strict construction fails exactly when some supplied setting
    violates its constraint; a failure returns no object, and its error
    carries the message of every violated setting, in order, one per
    line; a success returns an object. *)
Theorem New_fails_iff_violation_reports_all (l : list setting) :
  let r := New (map option_of l) in
  (snd r <> None <-> exists s, In s l /\ violates s = true) /\
  (forall e, snd r = Some e ->
     fst r = None /\
     leaves e = complaints l /\
     Error e = String.concat newline (complaints l) /\
     (forall s, In s l -> violates s = true -> In (complaint s) (leaves e))) /\
  (snd r = None -> exists b, fst r = Some b).
Proof.
  pose proof (New_loop_joined l defaultBackoff None [] eq_refl) as HJ.
  simpl in HJ. unfold New.
  destruct (New_loop (map option_of l) defaultBackoff None) as [b errs].
  simpl in HJ. destruct errs as [e|]; simpl in *.
  - destruct HJ as (Hne & Hl & He). split; [|split].
    + split; [intros _|discriminate]. now apply complaints_nonempty_iff.
    + intros e' [= <-]. repeat split; auto.
      intros s Hin Hv. rewrite Hl. unfold complaints.
      apply in_map, filter_In. auto.
    + discriminate.
  - split; [|split].
    + split; [congruence|]. intros Hex.
      apply complaints_nonempty_iff in Hex. congruence.
    + discriminate.
    + intros _. now exists b.
Qed.

(** C6.  When every supplied setting satisfies its constraint, [New]
    succeeds without error and returns the very object [CoerceNew]
    builds from the same settings. *)
Theorem valid_settings_New_equals_CoerceNew (l : list setting) :
  forallb satisfies l = true ->
  New (map option_of l) = (Some (CoerceNew (map option_of l)), None).
Proof.
  intros Hall. unfold New, CoerceNew.
  pose proof (New_loop_joined l defaultBackoff None [] eq_refl) as HJ.
  rewrite (New_loop_fst l _ _ Hall) in *. simpl in HJ.
  apply complaints_nil_iff in Hall. rewrite Hall in HJ.
  destruct (snd (New_loop (map option_of l) defaultBackoff None)) as [e|].
  - simpl in HJ. now destruct HJ as [Hne _].
  - reflexivity.
Qed.

Lemma valid_settings_New_equals_CoerceNew_witness :
  let l := [InitialDelay 0; BaseDelay (Millisecond * 500);
            ExponentialLimit (Second * 60); JitterFactor F64.three_tenths] in
  forallb satisfies l = true /\
  New (map option_of l) = (Some (CoerceNew (map option_of l)), None).
Proof.
  split; [reflexivity|].
  apply (valid_settings_New_equals_CoerceNew
           [InitialDelay 0; BaseDelay (Millisecond * 500);
            ExponentialLimit (Second * 60); JitterFactor F64.three_tenths]).
  reflexivity.
Defined.

(** ** Comparisons of floats *)

Lemma above_one_not_negative (x : spec_float) :
  F64.leb F64.one x = true -> F64.ltb x F64.zero = false.
Proof.
  unfold F64.leb, F64.ltb, SFleb, SFltb, F64.one, F64.zero.
  destruct x as [s|s| |s m e]; simpl; try reflexivity;
    destruct s; simpl; discriminate || reflexivity.
Qed.

(** ** Coercing construction *)

Lemma defaultBackoff_wellformed : wellformed defaultBackoff.
Proof. unfold wellformed. repeat split; vm_compute; congruence. Qed.

Lemma coerce_step_wellformed (s : setting) (b : Backoff) :
  wellformed b -> wellformed (fst (option_of s b true)).
Proof.
  unfold wellformed. intros (H1 & H2 & H3 & H4 & H5).
  destruct s as [d|d|d|jf]; simpl;
    unfold WithInitialDelay, WithBaseDelay, WithExponentialLimit,
      WithJitterFactor, F64.geb.
  - destruct (0 <=? d) eqn:E; simpl; repeat split; auto; lia.
  - destruct (0 <? d) eqn:E; simpl; repeat split; auto; lia.
  - destruct (0 <=? d) eqn:E; simpl; repeat split; auto; lia.
  - destruct (F64.leb F64.zero jf && F64.ltb jf F64.one) eqn:E; simpl.
    + apply andb_true_iff in E as [E1 E2]. repeat split; auto.
    + destruct (F64.ltb jf F64.zero); simpl; repeat split; auto.
Qed.

Lemma CoerceNew_loop_wellformed (l : list setting) :
  forall b, wellformed b -> wellformed (CoerceNew_loop (map option_of l) b).
Proof.
  induction l as [|s l IH]; intros b Hb; simpl; [exact Hb|].
  apply IH. now apply coerce_step_wellformed.
Qed.

Lemma CoerceNew_loop_app (l1 l2 : list backoffOption) (b : Backoff) :
  CoerceNew_loop (l1 ++ l2) b = CoerceNew_loop l2 (CoerceNew_loop l1 b).
Proof. revert b. induction l1 as [|o l1 IH]; intros b; simpl; auto. Qed.

Lemma agree_on_trans (f : fieldId) (a b c : Backoff) :
  agree_on f a b -> agree_on f b c -> agree_on f a c.
Proof. destruct f; simpl; congruence. Qed.

Lemma coerce_step_other_field (s t : setting) (b : Backoff) :
  same_field s t = false ->
  agree_on (field_of s) b (fst (option_of t b true)).
Proof.
  destruct s, t; simpl; try discriminate; intros _;
    unfold WithInitialDelay, WithBaseDelay, WithExponentialLimit,
      WithJitterFactor;
    repeat match goal with
           | |- context [if ?c then _ else _] => destruct c
           end; reflexivity.
Qed.

Lemma CoerceNew_loop_other_fields (s : setting) (l : list setting) :
  forall b,
  (forall t, In t l -> same_field s t = false) ->
  agree_on (field_of s) b (CoerceNew_loop (map option_of l) b).
Proof.
  induction l as [|t l IH]; intros b Hl; simpl.
  - destruct (field_of s); reflexivity.
  - eapply agree_on_trans.
    + apply (coerce_step_other_field s t). apply Hl. now left.
    + apply IH. intros t' Hin. apply Hl. now right.
Qed.

Lemma coerce_step_violating (s : setting) (b : Backoff) :
  violates s = true ->
  fst (option_of s b true) =
  match s with
  | InitialDelay _ => set_delay 0 b
  | BaseDelay _ => b
  | ExponentialLimit _ => set_expLimit 0 b
  | JitterFactor jf =>
      if F64.ltb jf F64.zero then set_jitterFactor F64.zero b else b
  end.
Proof.
  unfold violates. intros Hv. apply negb_true_iff in Hv.
  destruct s as [d|d|d|jf]; simpl in *;
    unfold WithInitialDelay, WithBaseDelay, WithExponentialLimit,
      WithJitterFactor, F64.geb; rewrite Hv; simpl; try reflexivity.
  now destruct (F64.ltb jf F64.zero).
Qed.

(** C4 as stated fails when a field is set more than once: in coercing
    mode a base delay [<= 0] and a jitter factor [>= 1] leave the field
    as it is, which is the default only if no earlier setting changed
    it.  After a base delay of 200 ns a base delay of 0 keeps 200 ns,
    not the default 100ms; after a jitter factor of 0.5 a jitter factor
    of 1.0 keeps 0.5, not the default 0.3. *)
Lemma repeated_setting_counterexample :
  let l := [BaseDelay 200; BaseDelay 0] in
  let l' := [JitterFactor F64.half; JitterFactor F64.one] in
  (In (BaseDelay 0) l /\ violates (BaseDelay 0) = true /\
   baseDelay (CoerceNew (map option_of l)) = 200 /\
   baseDelay (CoerceNew (map option_of l)) <> Millisecond * 100) /\
  (In (JitterFactor F64.one) l' /\ violates (JitterFactor F64.one) = true /\
   F64.geb F64.one F64.one = true /\
   jitterFactor (CoerceNew (map option_of l')) = F64.half /\
   jitterFactor (CoerceNew (map option_of l')) <> F64.three_tenths).
Proof.
  split.
  - split; [right; left; reflexivity|].
    vm_compute. repeat split; congruence.
  - split; [right; left; reflexivity|].
    vm_compute. repeat split; congruence.
Qed.

(** C4 (amended).  [CoerceNew] always returns an object, and the
    object satisfies every invariant.  In coercing mode a violating
    setting acts on the
    object as the table says: a negative initial delay sets 0, a base
    delay [<= 0] leaves the field alone, a negative exponential limit
    sets 0, a jitter factor [< 0] sets 0 and any other bad jitter
    factor ([>= 1], NaN) leaves the field alone.  So a violating
    setting that is the only one supplied for its field leaves the
    documented fallback in the result: 0, the default 100ms, 0, and 0
    or the default 0.3. *)
Theorem CoerceNew_total_and_fallbacks (l : list setting) :
  wellformed (CoerceNew (map option_of l)) /\
  (forall (s : setting) (b : Backoff),
     violates s = true ->
     fst (option_of s b true) =
     match s with
     | InitialDelay _ => set_delay 0 b
     | BaseDelay _ => b
     | ExponentialLimit _ => set_expLimit 0 b
     | JitterFactor jf =>
         if F64.ltb jf F64.zero then set_jitterFactor F64.zero b else b
     end) /\
  forall (l1 l2 : list setting) (s : setting),
    l = l1 ++ s :: l2 ->
    (forall t, In t (l1 ++ l2) -> same_field s t = false) ->
    violates s = true ->
    let b := CoerceNew (map option_of l) in
    match s with
    | InitialDelay d => d < 0 /\ delay b = 0
    | BaseDelay d => d <= 0 /\ baseDelay b = Millisecond * 100
    | ExponentialLimit d => d < 0 /\ expLimit b = 0
    | JitterFactor jf =>
        (F64.ltb jf F64.zero = true -> jitterFactor b = F64.zero) /\
        (F64.geb jf F64.one = true -> jitterFactor b = F64.three_tenths)
    end.
Proof.
  split; [|split].
  - apply CoerceNew_loop_wellformed, defaultBackoff_wellformed.
  - apply coerce_step_violating.
  - intros l1 l2 s -> Hother Hv b. subst b. unfold CoerceNew.
    rewrite map_app, CoerceNew_loop_app. simpl.
    set (b1 := CoerceNew_loop (map option_of l1) defaultBackoff).
    assert (H1 : agree_on (field_of s) defaultBackoff b1).
    { apply CoerceNew_loop_other_fields. intros t Ht. apply Hother.
      apply in_or_app. now left. }
    pose proof (CoerceNew_loop_other_fields s l2
                  (fst (option_of s b1 true))) as H2.
    rewrite (coerce_step_violating s b1 Hv) in *.
    assert (Hl2 : forall t, In t l2 -> same_field s t = false).
    { intros t Ht. apply Hother. apply in_or_app. now right. }
    specialize (H2 Hl2).
    unfold violates in Hv. apply negb_true_iff in Hv.
    destruct s as [d|d|d|jf]; simpl in *; rewrite <- H2.
    + split; [lia|reflexivity].
    + split; [lia|]. now rewrite <- H1.
    + split; [lia|reflexivity].
    + split.
      * intros ->. reflexivity.
      * intros Hge. rewrite (above_one_not_negative jf Hge).
        now rewrite <- H1.
Qed.

(** The table of [TestCoerceNewConstructor]. *)
Example coerce_table :
  map (fun '(d, bd, lim, jf) =>
         CoerceNew [WithInitialDelay d; WithBaseDelay bd;
                    WithExponentialLimit lim; WithJitterFactor jf])
    [(-1, defaultBaseDelay, defaultExpLimit, defaultJitterFactor);
     (defaultInitDelay, -1, defaultExpLimit, defaultJitterFactor);
     (defaultInitDelay, 0, defaultExpLimit, defaultJitterFactor);
     (defaultInitDelay, defaultBaseDelay, -1, defaultJitterFactor);
     (defaultInitDelay, defaultBaseDelay, defaultExpLimit,
      S754_finite true 4503599627370496 (-52));
     (defaultInitDelay, defaultBaseDelay, defaultExpLimit, F64.one)]
  = [mkBackoff 0 defaultBaseDelay defaultExpLimit defaultJitterFactor;
     defaultBackoff; defaultBackoff;
     mkBackoff defaultInitDelay defaultBaseDelay 0 defaultJitterFactor;
     mkBackoff defaultInitDelay defaultBaseDelay defaultExpLimit F64.zero;
     defaultBackoff].
Proof. reflexivity. Qed.

(** ** Inspection *)

Lemma peeks_run (n : nat) (w : World) :
  peeks n w = (repeat (delay (self w)) n, w).
Proof.
  induction n as [|n IH]; simpl; [reflexivity|].
  unfold bind, PeekDelay, load, ret in *. now rewrite IH.
Qed.

Lemma set_delay_same (b : Backoff) : set_delay (delay b) b = b.
Proof. now destruct b. Qed.

Lemma computeDelay_run (w : World) :
  computeDelay w =
  (jittered (stream (rng w) (drawn (rng w))) (jitterFactor (self w))
     (delay (self w)),
   mkWorld
     (set_delay (grow (delay (self w)) (baseDelay (self w)) (expLimit (self w)))
        (self w))
     (mkRand (stream (rng w)) (S (drawn (rng w))))).
Proof.
  destruct w as [b r]. unfold computeDelay, bind, rand_Float64, load, grow; simpl.
  destruct (delay b =? 0); simpl; [reflexivity|].
  destruct (delay b <? expLimit b); simpl; [reflexivity|].
  unfold ret. now rewrite set_delay_same.
Qed.

(** C8.  [PeekDelay] returns the [delay] field and leaves the whole
    world (object and random source) as it was, so any number of calls
    in a row return the same value; the value is the nominal delay the
    next [computeDelay] jitters and grows from. *)
Theorem PeekDelay_reads_nominal_without_effect (w : World) :
  PeekDelay w = (delay (self w), w) /\
  (forall n, peeks n w = (repeat (fst (PeekDelay w)) n, w)) /\
  (let d0 := fst (PeekDelay w) in
   computeDelay w =
   (jittered (stream (rng w) (drawn (rng w))) (jitterFactor (self w)) d0,
    mkWorld
      (set_delay (grow d0 (baseDelay (self w)) (expLimit (self w))) (self w))
      (mkRand (stream (rng w)) (S (drawn (rng w)))))).
Proof.
  split; [reflexivity|]. split.
  - intros n. apply peeks_run.
  - apply computeDelay_run.
Qed.

(** ** Growth of the nominal delay *)

Lemma wrap_small (z : Z) : - 2 ^ 63 <= z < 2 ^ 63 -> Int64.wrap z = z.
Proof.
  intros H. unfold Int64.wrap.
  rewrite Z.mod_small by lia. lia.
Qed.

Lemma grow_cases (d0 base lim : Duration) :
  (d0 = 0 -> grow d0 base lim = base) /\
  (d0 <> 0 -> d0 < lim -> grow d0 base lim = Int64.wrap (2 * d0)) /\
  (d0 <> 0 -> lim <= d0 -> grow d0 base lim = d0).
Proof.
  unfold grow, Int64.mul. repeat split.
  - intros ->. reflexivity.
  - intros Hnz Hlt. apply Z.eqb_neq in Hnz. apply Z.ltb_lt in Hlt.
    rewrite Hnz, Hlt. f_equal. lia.
  - intros Hnz Hge. apply Z.eqb_neq in Hnz. apply Z.ltb_ge in Hge.
    now rewrite Hnz, Hge.
Qed.

Lemma computeDelay_fields (w : World) :
  let b' := self (snd (computeDelay w)) in
  delay b' = grow (delay (self w)) (baseDelay (self w)) (expLimit (self w)) /\
  baseDelay b' = baseDelay (self w) /\
  expLimit b' = expLimit (self w) /\
  jitterFactor b' = jitterFactor (self w).
Proof. rewrite computeDelay_run. simpl. auto. Qed.

(** C2 as stated fails where doubling overflows 64 bits: from the
    object built with initial delay [2^62] ns and exponential limit
    [2^63 - 1] ns (both settings are valid), the nominal delay is non
    zero and below the limit, yet after one advance it is [-2^63], not
    [2 * 2^62]. *)
Lemma doubling_overflow_counterexample :
  let l := [InitialDelay (2 ^ 62); ExponentialLimit (2 ^ 63 - 1)] in
  let b := CoerceNew (map option_of l) in
  let w := mkWorld b (constant_source F64.zero) in
  New (map option_of l) = (Some b, None) /\
  delay b <> 0 /\ delay b < expLimit b /\
  delay (self (snd (computeDelay w))) = - 2 ^ 63 /\
  delay (self (snd (computeDelay w))) <> 2 * delay b.
Proof. vm_compute. repeat split; congruence. Qed.

(** C2 (amended).  One advance leaves the other three fields alone and
    computes the new nominal delay from the old one [d0] only: the base
    delay when [d0 = 0]; [2 * d0] in 64-bit arithmetic when [d0 <> 0]
    is below the limit, which is exactly [2 * d0] when
    [-2^62 <= d0 < 2^62]; [d0] itself otherwise.  Neither the draw nor
    the jitter factor nor the returned value enters: two worlds that
    agree on the three durations get the same new nominal delay. *)
Theorem advance_grows_from_nominal (w : World) :
  let b := self w in
  let d0 := delay b in
  let b' := self (snd (computeDelay w)) in
  baseDelay b' = baseDelay b /\ expLimit b' = expLimit b /\
  jitterFactor b' = jitterFactor b /\
  (d0 = 0 -> delay b' = baseDelay b) /\
  (d0 <> 0 -> d0 < expLimit b ->
     delay b' = Int64.wrap (2 * d0) /\
     (- 2 ^ 62 <= d0 < 2 ^ 62 -> delay b' = 2 * d0)) /\
  (d0 <> 0 -> expLimit b <= d0 -> delay b' = d0) /\
  (forall w2 : World,
     delay (self w2) = d0 -> baseDelay (self w2) = baseDelay b ->
     expLimit (self w2) = expLimit b ->
     delay (self (snd (computeDelay w2))) = delay b').
Proof.
  intros b d0 b'.
  destruct (computeDelay_fields w) as (Hd & Hb & Hl & Hj).
  fold b' in Hd, Hb, Hl, Hj. fold b in Hd, Hb, Hl, Hj. fold d0 in Hd.
  destruct (grow_cases d0 (baseDelay b) (expLimit b)) as (G0 & G1 & G2).
  repeat split; auto.
  - intros H0. rewrite Hd. auto.
  - rewrite Hd. auto.
  - intros Hr. rewrite Hd, G1 by assumption. apply wrap_small. lia.
  - intros Hnz Hge. rewrite Hd. auto.
  - intros w2 E1 E2 E3.
    destruct (computeDelay_fields w2) as (Hd2 & _).
    rewrite Hd2, Hd, E1, E2, E3. reflexivity.
Qed.

(** A round of the retry loop, and the state after [n] of them. *)
Lemma rounds_S (n : nat) (w : World) :
  rounds (S n) w =
  ((delay (self w), fst (computeDelay w)) :: fst (rounds n (snd (computeDelay w))),
   snd (rounds n (snd (computeDelay w)))).
Proof.
  simpl. unfold bind, PeekDelay, load, ret.
  destruct (computeDelay w) as [r w1]. simpl.
  now destruct (rounds n w1).
Qed.

Lemma advances_S (n : nat) (w : World) :
  advances (S n) w =
  (fst (computeDelay w) :: fst (advances n (snd (computeDelay w))),
   snd (advances n (snd (computeDelay w)))).
Proof.
  simpl. unfold bind, ret.
  destruct (computeDelay w) as [r w1]. simpl.
  now destruct (advances n w1).
Qed.

Lemma grow_nonneg (d0 base lim : Duration) :
  0 <= d0 -> 0 < base -> lim <= 2 ^ 62 -> 0 <= grow d0 base lim.
Proof.
  intros Hd Hb Hl. unfold grow, Int64.mul.
  destruct (Z.eqb_spec d0 0); [lia|].
  destruct (Z.ltb_spec d0 lim); [|lia].
  rewrite wrap_small; lia.
Qed.

Lemma advances_nonneg (n : nat) :
  forall w : World,
  0 <= delay (self w) -> 0 < baseDelay (self w) ->
  expLimit (self w) <= 2 ^ 62 ->
  0 <= delay (self (snd (advances n w))).
Proof.
  induction n as [|n IH]; intros w Hd Hb Hl; [exact Hd|].
  rewrite advances_S. simpl.
  destruct (computeDelay_fields w) as (E1 & E2 & E3 & _).
  apply IH.
  - rewrite E1. now apply grow_nonneg.
  - now rewrite E2.
  - now rewrite E3.
Qed.

(** C7 as stated fails for limits above [2^62] ns: the object built
    with initial delay [2^62] and exponential limit [2^63 - 1] satisfies
    every invariant, and one advance makes its nominal delay
    negative. *)
Lemma negative_delay_counterexample :
  let l := [InitialDelay (2 ^ 62); ExponentialLimit (2 ^ 63 - 1)] in
  let b := CoerceNew (map option_of l) in
  fst (New (map option_of l)) = Some b /\
  0 <= delay b /\ 0 < baseDelay b /\ 0 <= expLimit b /\
  F64.leb F64.zero (jitterFactor b) = true /\
  F64.ltb (jitterFactor b) F64.one = true /\
  delay (self (snd (advances 1 (mkWorld b (constant_source F64.zero))))) < 0.
Proof. vm_compute. repeat split; congruence. Qed.

(** C7 (amended).  For an object produced by either constructor whose
    exponential limit is at most [2^62] ns, the nominal delay is
    non-negative after any number of advances, whatever is drawn. *)
Theorem delay_stays_nonnegative
  (l : list setting) (b : Backoff) (r : RandSource) (n : nat) :
  b = CoerceNew (map option_of l) \/ fst (New (map option_of l)) = Some b ->
  expLimit b <= 2 ^ 62 ->
  0 <= delay (self (snd (advances n (mkWorld b r)))).
Proof.
  intros Hb Hl.
  assert (Hw : wellformed b).
  { destruct Hb as [-> | HN].
    - apply CoerceNew_loop_wellformed, defaultBackoff_wellformed.
    - unfold New in HN.
      destruct (New_loop (map option_of l) defaultBackoff None) as [b1 errs] eqn:E.
      destruct errs; simpl in HN; [discriminate|]. injection HN as <-.
      destruct (forallb satisfies l) eqn:Hall.
      + rewrite New_loop_fst in E by assumption. injection E as <- _.
        apply CoerceNew_loop_wellformed, defaultBackoff_wellformed.
      + pose proof (New_loop_joined l defaultBackoff None [] eq_refl) as HJ.
        rewrite E in HJ. simpl in HJ. apply complaints_nil_iff in HJ. congruence. }
  destruct Hw as (H1 & H2 & _).
  now apply advances_nonneg.
Qed.

Lemma delay_stays_nonnegative_witness :
  let l := [InitialDelay 0; BaseDelay (Millisecond * 500);
            ExponentialLimit (Second * 60)] in
  let b := CoerceNew (map option_of l) in
  (fst (New (map option_of l)) = Some b /\ expLimit b <= 2 ^ 62) /\
  0 <= delay (self (snd (advances 12 (mkWorld b (constant_source F64.half))))).
Proof.
  split.
  - split; vm_compute; congruence.
  - apply (delay_stays_nonnegative
             [InitialDelay 0; BaseDelay (Millisecond * 500);
              ExponentialLimit (Second * 60)]).
    + right. reflexivity.
    + vm_compute. congruence.
Defined.

(** ** The nominal sequence *)

Lemma nominal_at_S (i : nat) (w : World) :
  nominal_at (S i) w = nominal_at i (snd (computeDelay w)).
Proof. unfold nominal_at. now rewrite advances_S. Qed.

Lemma nominals_spec (n : nat) :
  forall w : World, nominals n w = map (fun i => nominal_at i w) (seq 0 n).
Proof.
  unfold nominals.
  induction n as [|n IH]; intros w; [reflexivity|].
  rewrite rounds_S. simpl. f_equal.
  rewrite IH, <- seq_shift, map_map.
  apply map_ext. intros i. now rewrite nominal_at_S.
Qed.

Lemma least_doubling (m : nat) :
  forall b L : Z, 0 < b -> L <= b * 2 ^ Z.of_nat m ->
  exists k : nat,
    (k <= m)%nat /\ L <= b * 2 ^ Z.of_nat k /\
    forall i : nat, (i < k)%nat -> b * 2 ^ Z.of_nat i < L.
Proof.
  induction m as [|m IH]; intros b L Hb HL.
  - exists O. repeat split; auto. intros i Hi. lia.
  - destruct (Z_lt_le_dec b L) as [Hlt|Hge].
    + destruct (IH (2 * b) L) as (k & Hk & Hup & Hlow); [lia| |].
      { rewrite Nat2Z.inj_succ, Z.pow_succ_r in HL by lia. lia. }
      exists (S k). repeat split; [lia| |].
      * rewrite Nat2Z.inj_succ, Z.pow_succ_r by lia. lia.
      * intros [|i] Hi; [simpl; lia|].
        rewrite Nat2Z.inj_succ, Z.pow_succ_r by lia.
        specialize (Hlow i ltac:(lia)). lia.
    + exists O. repeat split; [lia|simpl; lia|]. intros i Hi. lia.
Qed.

Lemma nominal_at_growing (b L : Z) (k : nat) :
  0 < b -> L <= 2 ^ 62 ->
  L <= b * 2 ^ Z.of_nat k ->
  (forall i : nat, (i < k)%nat -> b * 2 ^ Z.of_nat i < L) ->
  forall (n j : nat) (w : World),
  (j <= k)%nat ->
  delay (self w) = b * 2 ^ Z.of_nat j ->
  expLimit (self w) = L ->
  nominal_at n w = b * 2 ^ Z.of_nat (Nat.min (j + n) k).
Proof.
  intros Hb HL Hup Hlow.
  induction n as [|n IH]; intros j w Hj Hd Hlim.
  - unfold nominal_at. simpl. rewrite Hd. do 3 f_equal. lia.
  - rewrite nominal_at_S.
    destruct (computeDelay_fields w) as (E1 & _ & E3 & _).
    assert (Hpos : 0 < b * 2 ^ Z.of_nat j) by (apply Z.mul_pos_pos; lia).
    destruct (Nat.eq_dec j k) as [->|Hne].
    + rewrite (IH k) ; [do 3 f_equal; lia|lia| |congruence].
      rewrite E1, Hd, Hlim.
      apply grow_cases; lia.
    + assert (Hlt : b * 2 ^ Z.of_nat j < L) by (apply Hlow; lia).
      rewrite (IH (S j)); [do 3 f_equal; lia|lia| |congruence].
      rewrite E1, Hd, Hlim.
      destruct (grow_cases (b * 2 ^ Z.of_nat j) (baseDelay (self w)) L)
        as (_ & G & _).
      rewrite G by lia. rewrite wrap_small by lia.
      rewrite Nat2Z.inj_succ, Z.pow_succ_r by lia. lia.
Qed.

(** C1 as stated fails: the code never clamps.  With initial delay 0,
    base delay 500ms and exponential limit 60000ms the ninth nominal
    delay is 64000ms (the first doubling that is not below the limit),
    not 60000ms, and it stays there. *)
Lemma no_clamp_counterexample :
  let l := [InitialDelay 0; BaseDelay (Millisecond * 500);
            ExponentialLimit (Millisecond * 60000)] in
  let w := mkWorld (CoerceNew (map option_of l)) (constant_source F64.zero) in
  nominals 11 w =
    map (fun ms => Millisecond * ms)
      [0; 500; 1000; 2000; 4000; 8000; 16000; 32000; 64000; 64000; 64000] /\
  nominals 11 w <>
    map (clamped_nominal (Millisecond * 500) (Millisecond * 60000)) (seq 0 11) /\
  nth 8 (nominals 11 w) 0 > Millisecond * 60000.
Proof. vm_compute. repeat split; congruence. Qed.

(** C1 (amended).  From initial delay 0, base delay [b > 0] and
    exponential limit [L <= 2^62] ns, the nominal delays seen before
    successive advances are [0, b, 2b, 4b, ...]: the delay doubles
    while it is below [L] and stays at the first value [b * 2^k] that
    is not below [L].  That value is below [2 * L] when a doubling
    happened and is [b] otherwise; it is not clamped to [L]. *)
Theorem nominal_sequence_doubles_then_stays (w : World) (b L : Duration) :
  delay (self w) = 0 -> baseDelay (self w) = b -> expLimit (self w) = L ->
  0 < b -> L <= 2 ^ 62 ->
  exists k : nat,
    L <= b * 2 ^ Z.of_nat k /\
    (forall i : nat, (i < k)%nat -> b * 2 ^ Z.of_nat i < L) /\
    (k <> O -> b * 2 ^ Z.of_nat k < 2 * L) /\
    forall n : nat,
      nominals (S n) w =
      0 :: map (fun i => b * 2 ^ Z.of_nat (Nat.min i k)) (seq 0 n).
Proof.
  intros Hd Hbase Hlim Hb HL.
  destruct (least_doubling 62 b L Hb) as (k & _ & Hup & Hlow).
  { change (2 ^ Z.of_nat 62) with (2 ^ 62). nia. }
  exists k. repeat split; auto.
  - intros Hk. destruct k as [|k]; [congruence|].
    specialize (Hlow k ltac:(lia)).
    rewrite Nat2Z.inj_succ, Z.pow_succ_r by lia. lia.
  - intros n. rewrite nominals_spec.
    rewrite <- cons_seq. simpl. f_equal.
    + unfold nominal_at. simpl. exact Hd.
    + rewrite <- seq_shift, map_map. apply map_ext. intros i.
      rewrite nominal_at_S.
      destruct (computeDelay_fields w) as (E1 & _ & E3 & _).
      apply (nominal_at_growing b L k Hb HL Hup Hlow i O).
      * lia.
      * rewrite E1, Hd, Hbase. unfold grow. simpl. lia.
      * congruence.
Qed.

Lemma nominal_sequence_doubles_then_stays_witness :
  let l := [InitialDelay 0; BaseDelay (Millisecond * 500);
            ExponentialLimit (Millisecond * 60000)] in
  let w := mkWorld (CoerceNew (map option_of l)) (constant_source F64.zero) in
  (delay (self w) = 0 /\ baseDelay (self w) = Millisecond * 500 /\
   expLimit (self w) = Millisecond * 60000 /\
   0 < Millisecond * 500 /\ Millisecond * 60000 <= 2 ^ 62) /\
  exists k : nat,
    Millisecond * 60000 <= Millisecond * 500 * 2 ^ Z.of_nat k /\
    (forall i : nat, (i < k)%nat ->
       Millisecond * 500 * 2 ^ Z.of_nat i < Millisecond * 60000) /\
    (k <> O -> Millisecond * 500 * 2 ^ Z.of_nat k < 2 * (Millisecond * 60000)) /\
    forall n : nat,
      nominals (S n) w =
      0 :: map (fun i => Millisecond * 500 * 2 ^ Z.of_nat (Nat.min i k)) (seq 0 n).
Proof.
  split.
  - repeat split; vm_compute; congruence.
  - apply (nominal_sequence_doubles_then_stays
             (mkWorld
                (CoerceNew
                   (map option_of
                      [InitialDelay 0; BaseDelay (Millisecond * 500);
                       ExponentialLimit (Millisecond * 60000)]))
                (constant_source F64.zero))
             (Millisecond * 500) (Millisecond * 60000));
      vm_compute; congruence.
Defined.

(** [TestBaseDelay] and the growth part of [TestGrowthAndJitter]: with
    jitter factor 0 the returned values are the nominal ones. *)
Example base_delay_after_zero :
  nominal_at 1
    (mkWorld (CoerceNew [WithInitialDelay 0; WithBaseDelay 200])
       (constant_source F64.zero)) = 200 /\
  nominal_at 1
    (mkWorld (CoerceNew [WithInitialDelay 1; WithBaseDelay 200])
       (constant_source F64.zero)) = 2.
Proof. split; reflexivity. Qed.

Example growth_without_jitter :
  fst (rounds 10
         (mkWorld
            (CoerceNew [WithInitialDelay 2; WithExponentialLimit 64;
                        WithJitterFactor F64.zero])
            (constant_source F64.half)))
  = map (fun d => (d, d)) [2; 4; 8; 16; 32; 64; 64; 64; 64; 64].
Proof. vm_compute. reflexivity. Qed.

(** * Floating-point arithmetic *)

(** ** Binary digits and right shifts *)

Lemma digits2_pos_bounds (m : positive) :
  2 ^ (Zpos (digits2_pos m) - 1) <= Zpos m < 2 ^ Zpos (digits2_pos m).
Proof.
  induction m as [m IH|m IH|]; simpl digits2_pos.
  - rewrite Pos2Z.inj_succ.
    replace (Z.succ (Zpos (digits2_pos m)) - 1) with (Z.succ (Zpos (digits2_pos m) - 1)) by lia.
    rewrite !Z.pow_succ_r by lia. lia.
  - rewrite Pos2Z.inj_succ.
    replace (Z.succ (Zpos (digits2_pos m)) - 1) with (Z.succ (Zpos (digits2_pos m) - 1)) by lia.
    rewrite !Z.pow_succ_r by lia. lia.
  - simpl. lia.
Qed.

Lemma digits_unique (m d : Z) :
  0 < d -> 2 ^ (d - 1) <= m < 2 ^ d ->
  forall p, m = Zpos p -> Zpos (digits2_pos p) = d.
Proof.
  intros Hd Hm p ->.
  pose proof (digits2_pos_bounds p) as Hp.
  set (d' := Zpos (digits2_pos p)) in *.
  assert (Hd' : 0 < d') by (unfold d'; lia).
  destruct (Z.lt_trichotomy d' d) as [Hlt|[Heq|Hgt]]; [exfalso| assumption |exfalso].
  - assert (2 ^ d' <= 2 ^ (d - 1)) by (apply Z.pow_le_mono_r; lia). lia.
  - assert (2 ^ d <= 2 ^ (d' - 1)) by (apply Z.pow_le_mono_r; lia). lia.
Qed.

Lemma shr_1_nonneg (m : Z) (r s : bool) :
  0 <= m ->
  shr_1 (Build_shr_record m r s) = Build_shr_record (m / 2) (Z.odd m) (r || s).
Proof.
  intros Hm. rewrite <- Z.div2_div.
  destruct m as [|p|p]; [reflexivity| |lia].
  destruct p; reflexivity.
Qed.

Lemma iter_pos_nat {A : Type} (f : A -> A) (p : positive) :
  forall x, iter_pos f p x = Nat.iter (Pos.to_nat p) f x.
Proof.
  induction p as [p IH|p IH|]; intros x; simpl iter_pos.
  - rewrite !IH, Pos2Nat.inj_xI.
    replace (S (2 * Pos.to_nat p)) with (Pos.to_nat p + (Pos.to_nat p + 1))%nat by lia.
    rewrite !Nat.iter_add. reflexivity.
  - rewrite !IH, Pos2Nat.inj_xO.
    replace (2 * Pos.to_nat p)%nat with (Pos.to_nat p + Pos.to_nat p)%nat by lia.
    now rewrite Nat.iter_add.
  - reflexivity.
Qed.

Lemma mod_pow2_succ (m j : Z) :
  0 <= j ->
  m mod 2 ^ (j + 1) = m mod 2 ^ j + 2 ^ j * Z.b2z (Z.testbit m j).
Proof.
  intros Hj. rewrite Z.pow_add_r, Z.pow_1_r by lia.
  rewrite Z.rem_mul_r by lia.
  now rewrite Z.testbit_spec' by lia.
Qed.

Lemma shifted_step (m : Z) (k : nat) :
  0 <= m -> shr_1 (shifted m k) = shifted m (S k).
Proof.
  intros Hm. destruct k as [|j].
  - unfold shifted. rewrite shr_1_nonneg by assumption.
    change (Z.of_nat 1) with 1. change (Z.of_nat 0) with 0.
    rewrite Z.pow_1_r, Z.pow_0_r, Z.mod_1_r, Z.bit0_odd. reflexivity.
  - unfold shifted.
    assert (Hq : 0 <= m / 2 ^ Z.of_nat (S j))
      by (apply Z.div_pos; [assumption | apply Z.pow_pos_nonneg; lia]).
    rewrite shr_1_nonneg by assumption.
    f_equal.
    + rewrite Z.div_div by (try apply Z.pow_pos_nonneg; lia).
      f_equal. rewrite (Nat2Z.inj_succ (S j)), Z.pow_succ_r by lia. lia.
    + rewrite (Z.testbit_odd m (Z.of_nat (S j))), Z.shiftr_div_pow2 by lia.
      reflexivity.
    + rewrite (Nat2Z.inj_succ j), <- Z.add_1_r, mod_pow2_succ by lia.
      assert (H0 : 0 <= m mod 2 ^ Z.of_nat j)
        by (apply Z.mod_pos_bound, Z.pow_pos_nonneg; lia).
      assert (Hp : 0 < 2 ^ Z.of_nat j) by (apply Z.pow_pos_nonneg; lia).
      destruct (Z.testbit m (Z.of_nat j)); simpl Z.b2z; simpl orb.
      * symmetry. apply negb_true_iff, Z.eqb_neq. lia.
      * now rewrite Z.mul_0_r, Z.add_0_r.
Qed.

Lemma iter_shr_1 (m : Z) (k : nat) :
  0 <= m ->
  Nat.iter k shr_1 (Build_shr_record m false false) = shifted m k.
Proof.
  intros Hm. induction k as [|k IH]; [reflexivity|].
  simpl Nat.iter. rewrite IH. now apply shifted_step.
Qed.

Lemma shr_shifted (m e n : Z) :
  0 <= m ->
  shr (Build_shr_record m false false) e n =
  (shifted m (Z.to_nat n), e + Z.max 0 n).
Proof.
  intros Hm. unfold shr. destruct n as [|p|p].
  - simpl. f_equal. lia.
  - rewrite iter_pos_nat, iter_shr_1 by assumption.
    replace (Z.max 0 (Z.pos p)) with (Z.pos p) by lia. reflexivity.
  - simpl. f_equal. lia.
Qed.

(** Rounding the shifted mantissa to nearest even. *)
Lemma round_shifted (m : Z) (k : nat) :
  0 <= m ->
  let mrs := shifted m k in
  let m2 := round_nearest_even (shr_m mrs) (loc_of_shr_record mrs) in
  let P := 2 ^ Z.of_nat k in
  m / P <= m2 <= m / P + 1 /\
  Z.abs (2 * (m2 * P - m)) <= P /\
  (m mod P = 0 -> m2 * P = m).
Proof.
  intros Hm. destruct k as [|j].
  - cbv zeta. unfold shifted, round_nearest_even, loc_of_shr_record, shr_m.
    change (2 ^ Z.of_nat 0) with 1. rewrite Z.div_1_r, Z.mod_1_r. lia.
  - cbv zeta. unfold shifted.
    set (h := 2 ^ Z.of_nat j).
    assert (Hh : 0 < h) by (apply Z.pow_pos_nonneg; lia).
    assert (HP : 2 ^ Z.of_nat (S j) = 2 * h)
      by (unfold h; rewrite Nat2Z.inj_succ, Z.pow_succ_r; lia).
    rewrite HP.
    pose proof (mod_pow2_succ m (Z.of_nat j) ltac:(lia)) as Hmod.
    rewrite <- Nat2Z.inj_succ, Z.add_1_r in Hmod || rewrite Z.add_1_r, <- Nat2Z.inj_succ in Hmod.
    rewrite HP in Hmod. fold h in Hmod.
    pose proof (Z.div_mod m (2 * h) ltac:(lia)) as Hdm.
    pose proof (Z.mod_pos_bound m h Hh) as Ht.
    set (q := m / (2 * h)) in *. set (t := m mod h) in *.
    simpl shr_m.
    destruct (Z.testbit m (Z.of_nat j)); simpl Z.b2z in Hmod;
      destruct (Z.eqb_spec t 0) as [Ht0|Ht0]; simpl negb; simpl loc_of_shr_record;
      unfold round_nearest_even; try destruct (Z.even q); lia.
Qed.

(** ** Rounding to binary64 *)

Lemma fexp64 (g : Z) : fexp F64.prec F64.emax g = Z.max (g - 53) (-1074).
Proof. reflexivity. Qed.

Lemma shr_fexp_keep (p : positive) (e : Z) :
  Z.max (Zpos (digits2_pos p) + e - 53) (-1074) <= e ->
  shr_fexp F64.prec F64.emax (Zpos p) e loc_Exact =
  (Build_shr_record (Zpos p) false false, e).
Proof.
  intros H. unfold shr_fexp. rewrite fexp64. simpl Zdigits2.
  simpl shr_record_of_loc. rewrite shr_shifted by lia.
  replace (Z.to_nat _) with O by lia.
  simpl shifted. f_equal. lia.
Qed.

Lemma shr_fexp_carry (e : Z) :
  -1074 <= e ->
  shr_fexp F64.prec F64.emax 9007199254740992 e loc_Exact =
  (Build_shr_record 4503599627370496 false false, e + 1).
Proof.
  intros H. unfold shr_fexp. rewrite fexp64.
  change (Zdigits2 9007199254740992) with 54.
  simpl shr_record_of_loc. rewrite shr_shifted by lia.
  replace (Z.max (54 + e - 53) (-1074) - e) with 1 by lia.
  reflexivity.
Qed.

Lemma valid_finite (s : bool) (p : positive) (e : Z) :
  Z.max (Zpos (digits2_pos p) + e - 53) (-1074) = e -> e <= 971 ->
  F64.valid (S754_finite s p e) = true.
Proof.
  intros Hc He. unfold F64.valid, valid_binary, bounded, canonical_mantissa.
  rewrite fexp64. apply andb_true_iff. split.
  - apply Z.eqb_eq. lia.
  - apply Z.leb_le. unfold F64.emax, F64.prec. lia.
Qed.

Lemma binary_round_aux_correct (s : bool) (m : positive) (e : Z) :
  let g := Zpos (digits2_pos m) + e in
  let e1 := Z.max (g - 53) (-1074) in
  let P := 2 ^ (e1 - e) in
  e <= e1 -> g <= 1023 ->
  exists m2 : Z,
    0 <= m2 /\
    Z.abs (2 * (m2 * P - Zpos m)) <= P /\
    (Zpos m mod P = 0 -> m2 * P = Zpos m) /\
    encodes s m2 e1 (binary_round_aux F64.prec F64.emax s (Zpos m) e loc_Exact).
Proof.
  intros g e1 P He Hg.
  pose proof (digits2_pos_bounds m) as HD.
  set (D := Zpos (digits2_pos m)) in *.
  assert (HDpos : 0 < D) by (unfold D; lia).
  set (n := e1 - e) in *.
  assert (Hn : 0 <= n) by lia.
  unfold binary_round_aux, shr_fexp at 1. rewrite fexp64.
  simpl Zdigits2. fold D. fold g. fold e1. fold n.
  simpl shr_record_of_loc. rewrite shr_shifted by lia.
  replace (e + Z.max 0 n) with e1 by lia.
  pose proof (round_shifted (Zpos m) (Z.to_nat n) ltac:(lia)) as HR.
  cbv zeta in HR. rewrite Z2Nat.id in HR by lia. fold P in HR.
  set (m2 := round_nearest_even (shr_m (shifted (Zpos m) (Z.to_nat n)))
               (loc_of_shr_record (shifted (Zpos m) (Z.to_nat n)))) in *.
  destruct HR as (Hq & Habs & Hex).
  assert (HP : 0 < P) by (apply Z.pow_pos_nonneg; lia).
  assert (Hq0 : 0 <= Zpos m / P) by (apply Z.div_pos; lia).
  exists m2. split; [lia|]. split; [exact Habs|]. split; [exact Hex|].
  destruct (Z.eq_dec m2 0) as [Hz|Hnz].
  { (* rounded to zero *)
    rewrite Hz. unfold shr_fexp. rewrite fexp64. simpl Zdigits2.
    simpl shr_record_of_loc. rewrite shr_shifted by lia.
    replace (Z.to_nat _) with O by lia. simpl.
    split; [reflexivity|]. auto. }
  destruct m2 as [|p2|p2] eqn:Hm2; [congruence| |lia]. clear Hnz.
  pose proof (digits2_pos_bounds p2) as HD2.
  set (d2 := Zpos (digits2_pos p2)) in *.
  (* the rounded mantissa does not exceed the next power of two *)
  assert (Hle : Zpos p2 * P <= 2 ^ (D + Z.max 0 (n - D)) ).
  { destruct (Z_le_gt_dec n D) as [HnD|HnD].
    - replace (D + Z.max 0 (n - D)) with ((D - n) + n) by lia.
      rewrite Z.pow_add_r by lia. fold P.
      assert (Hqlt : Zpos m / P < 2 ^ (D - n)).
      { apply Z.div_lt_upper_bound; [lia|].
        unfold P. rewrite <- Z.pow_add_r by lia.
        replace (n + (D - n)) with D by lia. lia. }
      nia.
    - replace (D + Z.max 0 (n - D)) with n by lia. fold P.
      assert (Hq1 : Zpos m / P = 0).
      { apply Z.div_small. split; [lia|].
        assert (2 ^ D <= P) by (apply Z.pow_le_mono_r; lia). lia. }
      nia. }
  destruct (Z_le_gt_dec n D) as [HnD|HnD].
  - (* some digits are kept *)
    assert (Hqlo : 2 ^ (D - n - 1) * P <= Zpos m).
    { destruct (Z.eq_dec n D) as [->|Hne].
      - replace (D - D - 1) with (-1) by lia. simpl. lia.
      - unfold P. rewrite <- Z.pow_add_r by lia.
        replace (D - n - 1 + n) with (D - 1) by lia. lia. }
    replace (D + Z.max 0 (n - D)) with ((D - n) + n) in Hle by lia.
    rewrite Z.pow_add_r in Hle by lia. fold P in Hle.
    assert (Hup : Zpos p2 <= 2 ^ (D - n)) by nia.
    assert (Hlo : 2 ^ (D - n - 1) <= Zpos p2).
    { assert (2 ^ (D - n - 1) <= Zpos m / P)
        by (apply Z.div_le_lower_bound; lia).
      lia. }
    destruct (Z.eq_dec (Zpos p2) (2 ^ (D - n))) as [Hcarry|Hnc].
    + (* the mantissa was rounded up to a power of two *)
      destruct (Z_le_gt_dec (-1074) (g - 53)) as [Hnorm|Hsub].
      * assert (HDn : D - n = 53) by lia.
        rewrite HDn in Hcarry.
        change (2 ^ 53) with 9007199254740992 in Hcarry.
        injection Hcarry as ->.
        rewrite shr_fexp_carry by lia. simpl shr_m.
        replace (e1 + 1 <=? F64.emax - F64.prec) with true
          by (symmetry; apply Z.leb_le; unfold F64.emax, F64.prec; lia).
        split.
        -- apply valid_finite;
             change (Zpos (digits2_pos 4503599627370496)) with 53; lia.
        -- repeat split; try lia.
           replace (e1 + 1 - e1) with 1 by lia. reflexivity.
      * assert (Hd2 : d2 = D - n + 1).
        { apply (digits_unique (Zpos p2)); [lia| |reflexivity].
          replace (D - n + 1 - 1) with (D - n) by lia.
          rewrite Hcarry. split; [lia|].
          apply Z.pow_lt_mono_r; lia. }
        rewrite shr_fexp_keep by (fold d2; lia). simpl shr_m.
        replace (e1 <=? F64.emax - F64.prec) with true
          by (symmetry; apply Z.leb_le; unfold F64.emax, F64.prec; lia).
        split.
        -- apply valid_finite; fold d2; lia.
        -- repeat split; try lia.
           replace (e1 - e1) with 0 by lia. simpl. lia.
    + assert (HDn : 1 <= D - n).
      { destruct (Z.eq_dec n D) as [Heq|Hne]; [|lia].
        exfalso. rewrite Heq in *. replace (D - D) with 0 in * by lia.
        simpl in Hup. lia. }
      assert (Hd2 : d2 = D - n).
      { apply (digits_unique (Zpos p2)); [lia| |reflexivity]. lia. }
      rewrite shr_fexp_keep by (fold d2; lia). simpl shr_m.
      replace (e1 <=? F64.emax - F64.prec) with true
        by (symmetry; apply Z.leb_le; unfold F64.emax, F64.prec; lia).
      split.
      -- apply valid_finite; fold d2; lia.
      -- repeat split; try lia.
         replace (e1 - e1) with 0 by lia. simpl. lia.
  - (* every digit is shifted out; the result is the least subnormal *)
    replace (D + Z.max 0 (n - D)) with n in Hle by lia. fold P in Hle.
    assert (Hone : Zpos p2 = 1) by nia.
    assert (Hp2 : p2 = 1%positive) by lia. subst p2.
    rewrite shr_fexp_keep by (change (Zpos (digits2_pos 1)) with 1; lia).
    simpl shr_m.
    replace (e1 <=? F64.emax - F64.prec) with true
      by (symmetry; apply Z.leb_le; unfold F64.emax, F64.prec; lia).
    split.
    -- apply valid_finite; change (Zpos (digits2_pos 1)) with 1; lia.
    -- repeat split; try lia.
       replace (e1 - e1) with 0 by lia. simpl. lia.
Qed.

(** ** Powers of two in the reals *)

Lemma bpow_pos (e : Z) : (0 < bpow e)%R.
Proof. apply powerRZ_lt. lra. Qed.

Lemma bpow_add (a b : Z) : bpow (a + b) = (bpow a * bpow b)%R.
Proof. apply powerRZ_add. lra. Qed.

Lemma bpow_IZR (n : Z) : 0 <= n -> bpow n = IZR (2 ^ n).
Proof.
  intros Hn. unfold bpow.
  rewrite <- (Z2Nat.id n Hn) at 1.
  rewrite <- pow_powerRZ, pow_IZR. now rewrite Z2Nat.id.
Qed.

Lemma bpow_le (a b : Z) : a <= b -> (bpow a <= bpow b)%R.
Proof.
  intros H. replace b with (a + (b - a)) by lia. rewrite bpow_add.
  assert (H1 : (1 <= bpow (b - a))%R).
  { rewrite bpow_IZR by lia. apply IZR_le.
    assert (0 < 2 ^ (b - a)) by (apply Z.pow_pos_nonneg; lia). lia. }
  pose proof (bpow_pos a). nra.
Qed.

Lemma bpow_lt (a b : Z) : a < b -> (bpow a < bpow b)%R.
Proof.
  intros H. replace b with (a + (b - a)) by lia. rewrite bpow_add.
  assert (H2 : (2 <= bpow (b - a))%R).
  { rewrite bpow_IZR by lia. apply IZR_le.
    change 2 with (2 ^ 1) at 1. apply Z.pow_le_mono_r; lia. }
  pose proof (bpow_pos a). nra.
Qed.

Lemma bpow_lt_inv (a b : Z) : (bpow a < bpow b)%R -> a < b.
Proof.
  intros H. destruct (Z_lt_le_dec a b) as [Hlt|Hge]; [assumption|].
  apply bpow_le in Hge. lra.
Qed.

Lemma bpow_m1 : bpow (-1) = (/ 2)%R.
Proof. unfold bpow, powerRZ. simpl. now rewrite Rmult_1_r. Qed.

Lemma bpow_opp (e : Z) : (bpow e * bpow (- e) = 1)%R.
Proof. rewrite <- bpow_add. replace (e + - e) with 0 by lia. reflexivity. Qed.

(** Comparing scaled integers. *)
Lemma scaled_eq_inv (a b : Z) (e f : Z) :
  e <= f -> (IZR a * bpow e = IZR b * bpow f)%R -> a = b * 2 ^ (f - e).
Proof.
  intros Hef H. apply eq_IZR.
  rewrite mult_IZR, <- bpow_IZR by lia.
  replace f with (e + (f - e)) in H by lia. rewrite bpow_add in H.
  pose proof (bpow_pos e). nra.
Qed.

(** ** The real value of a rounded float *)

Lemma IZR_cond_Zopp (s : bool) (m : Z) :
  IZR (cond_Zopp s m) = (if s then - IZR m else IZR m)%R.
Proof. destruct s; simpl; [apply opp_IZR|reflexivity]. Qed.

Lemma encodes_F2R (s : bool) (m2 e1 : Z) (r : float64) :
  encodes s m2 e1 r ->
  F64.valid r = true /\ is_finite r = true /\
  F2R r = (IZR (cond_Zopp s m2) * bpow e1)%R.
Proof.
  intros (Hv & Hr). split; [assumption|].
  destruct r as [s'|s'| |s' m3 e3]; try contradiction.
  - destruct Hr as (-> & ->). split; [reflexivity|]. simpl.
    rewrite IZR_cond_Zopp. destruct s; lra.
  - destruct Hr as (-> & He & <-). split; [reflexivity|]. unfold F2R.
    rewrite !IZR_cond_Zopp, mult_IZR, <- bpow_IZR by lia.
    replace (bpow e3) with (bpow (e3 - e1) * bpow e1)%R
      by (rewrite <- bpow_add; f_equal; lia).
    destruct s; ring.
Qed.

(** The exact value a rounding starts from, and the bound on what the
    rounding adds. *)
Lemma digits_le_of_lt (m : positive) (e K : Z) :
  (IZR (Zpos m) * bpow e < bpow K)%R -> Zpos (digits2_pos m) + e <= K.
Proof.
  intros H. pose proof (digits2_pos_bounds m) as [Hlo _].
  set (D := Zpos (digits2_pos m)) in *.
  assert (HD : 0 < D) by (unfold D; lia).
  apply IZR_le in Hlo. rewrite <- bpow_IZR in Hlo by lia.
  assert (Hlt : (bpow (D - 1 + e) < bpow K)%R).
  { rewrite bpow_add. pose proof (bpow_pos e). nra. }
  apply bpow_lt_inv in Hlt. lia.
Qed.

Lemma binary_round_aux_R (s : bool) (m : positive) (e K : Z) :
  e <= Z.max (Zpos (digits2_pos m) + e - 53) (-1074) ->
  (IZR (Zpos m) * bpow e < bpow K)%R -> K <= 1023 ->
  rounding_of (IZR (cond_Zopp s (Zpos m)) * bpow e) K
    (binary_round_aux F64.prec F64.emax s (Zpos m) e loc_Exact).
Proof.
  intros He HK HK'.
  set (x := (IZR (cond_Zopp s (Zpos m)) * bpow e)%R).
  set (r := binary_round_aux F64.prec F64.emax s (Zpos m) e loc_Exact).
  unfold rounding_of, representable.
  pose proof (digits_le_of_lt m e K HK) as Hg.
  destruct (binary_round_aux_correct s m e He ltac:(lia))
    as (m2 & Hm2 & Habs & Hex & Hr).
  apply encodes_F2R in Hr. destruct Hr as (Hv & Hf & HF).
  fold r in Hv, Hf, HF.
  set (g := Zpos (digits2_pos m) + e) in *.
  set (e1 := Z.max (g - 53) (-1074)) in *.
  set (P := 2 ^ (e1 - e)) in *.
  assert (HP : 0 < P) by (apply Z.pow_pos_nonneg; lia).
  assert (Hbe : bpow e1 = (IZR P * bpow e)%R).
  { unfold P. rewrite <- bpow_IZR, <- bpow_add by lia. f_equal. lia. }
  assert (Hmag : (Rabs (IZR m2 * bpow e1 - IZR (Zpos m) * bpow e)
                  <= bpow (e1 - 1))%R).
  { rewrite Hbe.
    replace (IZR m2 * (IZR P * bpow e) - IZR (Zpos m) * bpow e)%R
      with (IZR (m2 * P - Zpos m) * bpow e)%R
      by (rewrite minus_IZR, mult_IZR; ring).
    rewrite Rabs_mult, (Rabs_pos_eq (bpow e)) by (apply Rlt_le, bpow_pos).
    replace (bpow (e1 - 1)) with (IZR P / 2 * bpow e)%R.
    2:{ replace (e1 - 1) with (e1 + -1) by lia.
        rewrite bpow_add, Hbe, bpow_m1. field. }
    apply Rmult_le_compat_r; [apply Rlt_le, bpow_pos|].
    rewrite <- abs_IZR.
    assert (H2 : (IZR (2 * Z.abs (m2 * P - Zpos m)) <= IZR P)%R)
      by (apply IZR_le; lia).
    rewrite mult_IZR in H2. lra. }
  split; [assumption|]. split; [assumption|].
  assert (Hmono : (bpow (e1 - 1) <= bpow (Z.max (K - 53) (-1074) - 1))%R)
    by (apply bpow_le; lia).
  assert (Hm2R : (0 <= IZR m2)%R) by (apply IZR_le; lia).
  pose proof (bpow_pos e1) as Hpe1. pose proof (bpow_pos e) as Hpe.
  assert (HmR : (0 < IZR (Zpos m))%R) by (apply IZR_lt; lia).
  split; [|split; [|split]].
  - rewrite HF. unfold x. rewrite !IZR_cond_Zopp.
    destruct s.
    + replace (- IZR m2 * bpow e1 - - IZR (Z.pos m) * bpow e)%R
        with (- (IZR m2 * bpow e1 - IZR (Zpos m) * bpow e))%R by ring.
      rewrite Rabs_Ropp. lra.
    + lra.
  - unfold x. rewrite HF, !IZR_cond_Zopp. destruct s; nra.
  - unfold x. rewrite HF, !IZR_cond_Zopp. destruct s; nra.
  - intros (M & E & HE & HM & HxM).
    (* a representable value is not changed *)
    assert (HabsM : (IZR (Zpos m) * bpow e = IZR (Z.abs M) * bpow E)%R).
    { unfold x in HxM. rewrite IZR_cond_Zopp in HxM.
      pose proof (bpow_pos E) as HpE.
      rewrite abs_IZR.
      destruct s.
      - assert (IZR M <= 0)%R by nra. rewrite Rabs_left1 by assumption. lra.
      - assert (0 <= IZR M)%R by nra. rewrite Rabs_pos_eq by assumption. lra. }
    assert (He1E : e1 <= E).
    { assert (g <= 53 + E); [|lia].
      apply (digits_le_of_lt m e (53 + E)).
      rewrite HabsM, bpow_add, (bpow_IZR 53) by lia.
      apply Rmult_lt_compat_r; [apply bpow_pos|].
      apply IZR_lt. lia. }
    assert (Hm : Zpos m = Z.abs M * 2 ^ (E - e))
      by (apply scaled_eq_inv; [lia|assumption]).
    assert (Hdiv : Zpos m mod P = 0).
    { rewrite Hm. unfold P.
      replace (E - e) with ((E - e1) + (e1 - e)) by lia.
      rewrite Z.pow_add_r, Z.mul_assoc by lia.
      apply Z.mod_mul. fold P. lia. }
    specialize (Hex Hdiv).
    rewrite HF. unfold x. rewrite !IZR_cond_Zopp, Hbe.
    apply (f_equal IZR) in Hex. rewrite mult_IZR in Hex.
    destruct s; nra.
Qed.

(** ** Alignment and normalisation *)

Lemma iter_xO (d m : positive) :
  Zpos (Pos.iter xO m d) = Zpos m * 2 ^ Zpos d /\
  Zpos (digits2_pos (Pos.iter xO m d)) = Zpos (digits2_pos m) + Zpos d.
Proof.
  induction d as [|d IH] using Pos.peano_ind.
  - simpl. split; lia.
  - rewrite Pos.iter_succ. destruct IH as [IH1 IH2].
    simpl digits2_pos. rewrite Pos2Z.inj_xO, IH1.
    rewrite !Pos2Z.inj_succ, IH2, Z.pow_succ_r by lia. split; lia.
Qed.

Lemma shl_align_spec (m : positive) (e e' : Z) :
  let mz := fst (shl_align m e e') in
  let ez := snd (shl_align m e e') in
  ez = Z.min e e' /\
  Zpos mz = Zpos m * 2 ^ (e - ez) /\
  Zpos (digits2_pos mz) + ez = Zpos (digits2_pos m) + e.
Proof.
  unfold shl_align. destruct (e' - e) as [|d|d] eqn:Hd; cbn [fst snd].
  - rewrite Z.sub_diag, Z.pow_0_r. lia.
  - rewrite Z.sub_diag, Z.pow_0_r. lia.
  - destruct (iter_xO d m) as [H1 H2]. rewrite H1, H2.
    replace (e - e') with (Zpos d) by lia. lia.
Qed.

Lemma binary_round_R (s : bool) (m : positive) (e K : Z) :
  (IZR (Zpos m) * bpow e < bpow K)%R -> K <= 1023 ->
  rounding_of (IZR (cond_Zopp s (Zpos m)) * bpow e) K
    (binary_round F64.prec F64.emax s m e).
Proof.
  intros HK HK'. unfold binary_round. rewrite fexp64.
  pose proof (shl_align_spec m e (Z.max (Zpos (digits2_pos m) + e - 53) (-1074)))
    as Hal.
  destruct (shl_align m e _) as [mz ez]. cbn [fst snd] in Hal.
  destruct Hal as (Hez & Hmz & Hdz).
  assert (Hval : (IZR (Zpos mz) * bpow ez = IZR (Zpos m) * bpow e)%R).
  { rewrite Hmz, mult_IZR, <- bpow_IZR by lia.
    rewrite Rmult_assoc, <- bpow_add. do 2 f_equal. lia. }
  assert (Hx : (IZR (cond_Zopp s (Zpos m)) * bpow e
                = IZR (cond_Zopp s (Zpos mz)) * bpow ez)%R).
  { rewrite !IZR_cond_Zopp. destruct s; lra. }
  rewrite Hx. apply binary_round_aux_R; [lia|lra|assumption].
Qed.

Lemma binary_normalize_R (z e K : Z) :
  (Rabs (IZR z * bpow e) < bpow K)%R -> K <= 1023 ->
  rounding_of (IZR z * bpow e) K
    (binary_normalize F64.prec F64.emax z e false).
Proof.
  intros HK HK'. pose proof (bpow_pos e) as Hpe.
  destruct z as [|p|p]; simpl binary_normalize.
  - rewrite Rmult_0_l. unfold rounding_of. simpl.
    rewrite Rminus_diag, Rabs_R0.
    repeat split; try reflexivity; try lra.
    apply Rlt_le, bpow_pos.
  - apply (binary_round_R false p e K); [|assumption].
    rewrite Rabs_pos_eq in HK; [assumption|].
    assert (0 < IZR (Zpos p))%R by (apply IZR_lt; lia). nra.
  - change (Zneg p) with (cond_Zopp true (Zpos p)).
    apply (binary_round_R true p e K); [|assumption].
    change (Zneg p) with (- Zpos p) in HK.
    rewrite opp_IZR, Ropp_mult_distr_l_reverse, Rabs_Ropp in HK.
    rewrite Rabs_pos_eq in HK; [assumption|].
    assert (0 < IZR (Zpos p))%R by (apply IZR_lt; lia). nra.
Qed.

(** ** The operations on well-formed floats *)

Lemma valid_finite_inv (s : bool) (m : positive) (e : Z) :
  F64.valid (S754_finite s m e) = true ->
  Z.max (Zpos (digits2_pos m) + e - 53) (-1074) = e /\ e <= 971.
Proof.
  unfold F64.valid, valid_binary, bounded, canonical_mantissa.
  rewrite fexp64. intros H. apply andb_true_iff in H as [H1 H2].
  apply Z.eqb_eq in H1. apply Z.leb_le in H2.
  unfold F64.emax, F64.prec in H2. lia.
Qed.

Lemma rounding_of_zero (K : Z) (s : bool) : rounding_of 0 K (S754_zero s).
Proof.
  unfold rounding_of. simpl. rewrite Rminus_diag, Rabs_R0.
  repeat split; try reflexivity; try lra. apply Rlt_le, bpow_pos.
Qed.

Lemma rounding_of_self (K : Z) (x : float64) :
  F64.valid x = true -> is_finite x = true -> rounding_of (F2R x) K x.
Proof.
  intros Hv Hf. unfold rounding_of. rewrite Rminus_diag, Rabs_R0.
  repeat split; auto; try lra. apply Rlt_le, bpow_pos.
Qed.

Lemma digits_mul (mx my : positive) :
  Zpos (digits2_pos mx) + Zpos (digits2_pos my) - 1
  <= Zpos (digits2_pos (mx * my)).
Proof.
  pose proof (digits2_pos_bounds mx) as [Hx _].
  pose proof (digits2_pos_bounds my) as [Hy _].
  pose proof (digits2_pos_bounds (mx * my)) as [_ Hxy].
  set (Dx := Zpos (digits2_pos mx)) in *.
  set (Dy := Zpos (digits2_pos my)) in *.
  set (D := Zpos (digits2_pos (mx * my))) in *.
  assert (0 < Dx /\ 0 < Dy /\ 0 < D) as (H1 & H2 & H3) by (unfold Dx, Dy, D; lia).
  assert (Hlt : 2 ^ (Dx - 1 + (Dy - 1)) < 2 ^ D).
  { rewrite Z.pow_add_r by lia. rewrite Pos2Z.inj_mul in Hxy. nia. }
  apply Z.pow_lt_mono_r_iff in Hlt; lia.
Qed.

Lemma F2R_finite (s : bool) (m : positive) (e : Z) :
  F2R (S754_finite s m e) = (IZR (cond_Zopp s (Zpos m)) * bpow e)%R.
Proof. reflexivity. Qed.

Lemma mul_R (x y : float64) (K : Z) :
  F64.valid x = true -> F64.valid y = true ->
  is_finite x = true -> is_finite y = true ->
  (Rabs (F2R x * F2R y) < bpow K)%R -> K <= 1023 ->
  rounding_of (F2R x * F2R y) K (F64.mul x y).
Proof.
  intros Hvx Hvy Hfx Hfy HK HK'.
  destruct x as [sx|sx| |sx mx ex]; try discriminate;
    destruct y as [sy|sy| |sy my ey]; try discriminate;
    unfold F64.mul, SFmul.
  - simpl F2R. rewrite Rmult_0_l. apply rounding_of_zero.
  - simpl (F2R (S754_zero _)). rewrite Rmult_0_l. apply rounding_of_zero.
  - simpl (F2R (S754_zero _)). rewrite Rmult_0_r. apply rounding_of_zero.
  - apply valid_finite_inv in Hvx as [Hcx Hex].
    apply valid_finite_inv in Hvy as [Hcy Hey].
    pose proof (digits_mul mx my) as Hd.
    assert (Hxy : (F2R (S754_finite sx mx ex) * F2R (S754_finite sy my ey)
                   = IZR (cond_Zopp (xorb sx sy) (Zpos (mx * my)))
                     * bpow (ex + ey))%R).
    { rewrite !F2R_finite, !IZR_cond_Zopp, Pos2Z.inj_mul, mult_IZR, bpow_add.
      destruct sx, sy; simpl; ring. }
    rewrite Hxy in *.
    apply binary_round_aux_R; [lia| |assumption].
    rewrite IZR_cond_Zopp in HK.
    assert (Hp : (0 < IZR (Zpos (mx * my)) * bpow (ex + ey))%R).
    { apply Rmult_lt_0_compat; [apply IZR_lt; lia|apply bpow_pos]. }
    destruct (xorb sx sy).
    + rewrite Ropp_mult_distr_l_reverse, Rabs_Ropp, Rabs_pos_eq in HK; lra.
    + rewrite Rabs_pos_eq in HK; lra.
Qed.

Lemma aligned_value (s : bool) (m : positive) (e ez : Z) :
  ez <= e ->
  (IZR (cond_Zopp s (Zpos (fst (shl_align m e ez)))) * bpow ez
   = F2R (S754_finite s m e))%R.
Proof.
  intros Hez. pose proof (shl_align_spec m e ez) as (H1 & H2 & _).
  rewrite F2R_finite, !IZR_cond_Zopp, H2, H1, mult_IZR.
  replace (Z.min e ez) with ez by lia.
  rewrite <- bpow_IZR by lia.
  replace (bpow e) with (bpow (e - ez) * bpow ez)%R
    by (rewrite <- bpow_add; f_equal; lia).
  destruct s; ring.
Qed.

Lemma add_R (x y : float64) (K : Z) :
  F64.valid x = true -> F64.valid y = true ->
  is_finite x = true -> is_finite y = true ->
  (Rabs (F2R x + F2R y) < bpow K)%R -> K <= 1023 ->
  rounding_of (F2R x + F2R y) K (F64.add x y).
Proof.
  intros Hvx Hvy Hfx Hfy HK HK'.
  destruct x as [sx|sx| |sx mx ex]; try discriminate;
    destruct y as [sy|sy| |sy my ey]; try discriminate;
    unfold F64.add, SFadd.
  - simpl F2R. rewrite Rplus_0_l.
    destruct sx, sy; apply rounding_of_zero.
  - simpl (F2R (S754_zero _)). rewrite Rplus_0_l.
    now apply rounding_of_self.
  - simpl (F2R (S754_zero _)). rewrite Rplus_0_r.
    now apply rounding_of_self.
  - cbv zeta.
    rewrite <- (aligned_value sx mx ex (Z.min ex ey)) in * by lia.
    rewrite <- (aligned_value sy my ey (Z.min ex ey)) in * by lia.
    rewrite <- Rmult_plus_distr_r, <- plus_IZR in *.
    now apply binary_normalize_R.
Qed.

Lemma sub_R (x y : float64) (K : Z) :
  F64.valid x = true -> F64.valid y = true ->
  is_finite x = true -> is_finite y = true ->
  (Rabs (F2R x - F2R y) < bpow K)%R -> K <= 1023 ->
  rounding_of (F2R x - F2R y) K (F64.sub x y).
Proof.
  intros Hvx Hvy Hfx Hfy HK HK'.
  destruct x as [sx|sx| |sx mx ex]; try discriminate;
    destruct y as [sy|sy| |sy my ey]; try discriminate;
    unfold F64.sub, SFsub.
  - simpl F2R. rewrite Rminus_diag.
    destruct sx, sy; apply rounding_of_zero.
  - simpl (F2R (S754_zero _)). rewrite Rminus_0_l.
    replace (- F2R (S754_finite sy my ey))%R
      with (F2R (S754_finite (negb sy) my ey))
      by (rewrite !F2R_finite, !IZR_cond_Zopp; destruct sy; simpl; ring).
    apply rounding_of_self; [|reflexivity].
    exact Hvy.
  - simpl (F2R (S754_zero _)). rewrite Rminus_0_r.
    now apply rounding_of_self.
  - cbv zeta.
    rewrite <- (aligned_value sx mx ex (Z.min ex ey)) in * by lia.
    rewrite <- (aligned_value sy my ey (Z.min ex ey)) in * by lia.
    rewrite <- Rmult_minus_distr_r, <- minus_IZR in *.
    now apply binary_normalize_R.
Qed.

Lemma of_int_R (z K : Z) :
  (Rabs (IZR z) < bpow K)%R -> K <= 1023 ->
  rounding_of (IZR z) K (F64.of_int z).
Proof.
  intros HK HK'. unfold F64.of_int.
  replace (IZR z) with (IZR z * bpow 0)%R in * by (unfold bpow; simpl; ring).
  now apply binary_normalize_R.
Qed.

(** ** Literal powers of two *)

Lemma bpow_pos_lit (p : positive) : bpow (Zpos p) = IZR (2 ^ Zpos p).
Proof. apply bpow_IZR. lia. Qed.

Lemma bpow_neg_lit (p : positive) : bpow (Zneg p) = (/ IZR (2 ^ Zpos p))%R.
Proof.
  pose proof (bpow_opp (Zpos p)) as H. rewrite bpow_pos_lit in H.
  change (- Zpos p) with (Zneg p) in H.
  assert (Hp : (0 < IZR (2 ^ Zpos p))%R)
    by (apply IZR_lt, Z.pow_pos_nonneg; lia).
  apply (Rmult_eq_reg_l (IZR (2 ^ Zpos p))); [|lra].
  rewrite H. field. lra.
Qed.

Lemma bpow_0 : bpow 0 = 1%R.
Proof. reflexivity. Qed.

Ltac pos_literal p :=
  match p with
  | xH => idtac
  | xO ?q => pos_literal q
  | xI ?q => pos_literal q
  end.

Ltac bpow_lit :=
  repeat rewrite bpow_pos_lit in *;
  repeat rewrite bpow_neg_lit in *;
  repeat rewrite bpow_0 in *;
  repeat match goal with
    | |- context [2 ^ Zpos ?p] =>
        pos_literal p;
        let v := eval vm_compute in (2 ^ Zpos p) in
        change (2 ^ Zpos p) with v
    | H : context [2 ^ Zpos ?p] |- _ =>
        pos_literal p;
        let v := eval vm_compute in (2 ^ Zpos p) in
        change (2 ^ Zpos p) with v in H
    end.

(** ** Constants and the unit interval *)

Lemma F2R_half : F2R F64.half = (/ 2)%R.
Proof. unfold F64.half, F2R, cond_Zopp. bpow_lit. lra. Qed.

Lemma F2R_one : F2R F64.one = 1%R.
Proof. unfold F64.one, F2R, cond_Zopp. bpow_lit. lra. Qed.

Lemma unit_interval_R (u : float64) :
  unit_interval u = true ->
  F64.valid u = true /\ is_finite u = true /\ (0 <= F2R u < 1)%R.
Proof.
  unfold unit_interval. intros H.
  apply andb_true_iff in H as [H Hlt]. apply andb_true_iff in H as [Hv Hle].
  split; [assumption|].
  destruct u as [s|s| |s m e].
  - simpl. split; [reflexivity|lra].
  - destruct s; discriminate.
  - discriminate.
  - split; [reflexivity|].
    destruct s; [discriminate|].
    apply valid_finite_inv in Hv as [Hc He].
    pose proof (digits2_pos_bounds m) as [_ Hm].
    rewrite F2R_finite. simpl cond_Zopp.
    pose proof (bpow_pos e) as Hpe.
    assert (Hm0 : (0 < IZR (Zpos m))%R) by (apply IZR_lt; lia).
    split; [nra|].
    assert (Hm53 : (IZR (Zpos m) < bpow 53)%R).
    { rewrite bpow_IZR by lia. apply IZR_lt.
      assert (2 ^ Zpos (digits2_pos m) <= 2 ^ 53)
        by (apply Z.pow_le_mono_r; lia).
      lia. }
    unfold F64.ltb, SFltb, F64.one, SFcompare in Hlt.
    destruct (Z.compare_spec e (-52)) as [Heq|Hl|Hg]; try discriminate.
    + subst e.
      destruct (PosDef.Pos.compare_cont Eq m 4503599627370496) eqn:Hcmp;
        try discriminate.
      assert (H52 : (IZR (Zpos m) < IZR 4503599627370496)%R)
        by (apply IZR_lt, Pos2Z.pos_lt_pos; exact Hcmp).
      bpow_lit. lra.
    + assert (Hb : (bpow e <= bpow (-53))%R) by (apply bpow_le; lia).
      assert (H1 : (bpow 53 * bpow (-53) = 1)%R) by apply bpow_opp.
      nra.
Qed.

(** ** Rounding to an integer and converting *)

Lemma valid_mantissa_lt (s : bool) (m : positive) (e : Z) :
  F64.valid (S754_finite s m e) = true -> Zpos m < 2 ^ 53.
Proof.
  intros Hv. apply valid_finite_inv in Hv as [Hc _].
  pose proof (digits2_pos_bounds m) as [_ Hm].
  assert (2 ^ Zpos (digits2_pos m) <= 2 ^ 53)
    by (apply Z.pow_le_mono_r; lia).
  lia.
Qed.

Lemma Rabs_le_half_of_Z (n m k : Z) :
  0 < k -> Z.abs (2 * (n * k - m)) <= k ->
  (Rabs (IZR n - IZR m * / IZR k) <= / 2)%R.
Proof.
  intros Hk H.
  assert (HkR : (0 < IZR k)%R) by (apply IZR_lt; lia).
  replace (IZR n - IZR m * / IZR k)%R with (IZR (n * k - m) * / IZR k)%R
    by (rewrite minus_IZR, mult_IZR; field; lra).
  rewrite Rabs_mult, (Rabs_pos_eq (/ IZR k))
    by (apply Rlt_le, Rinv_0_lt_compat; assumption).
  rewrite <- abs_IZR.
  assert (H2 : (IZR (2 * Z.abs (n * k - m)) <= IZR k)%R) by (apply IZR_le; lia).
  rewrite mult_IZR in H2.
  apply (Rmult_le_reg_r (IZR k)); [assumption|].
  rewrite Rmult_assoc, Rinv_l by lra. lra.
Qed.

Lemma Round_R (x : float64) :
  F64.valid x = true -> is_finite x = true ->
  exists N : Z,
    is_finite (F64.Round x) = true /\
    F2R (F64.Round x) = IZR N /\
    (Rabs (IZR N - F2R x) <= / 2)%R.
Proof.
  intros Hv Hf. destruct x as [s|s| |s m e]; try discriminate.
  - exists 0. simpl. rewrite Rminus_diag, Rabs_R0. repeat split; lra.
  - unfold F64.Round. destruct (Z.leb_spec 0 e) as [He|He].
    + exists (cond_Zopp s (Zpos m) * 2 ^ e). split; [reflexivity|].
      rewrite F2R_finite, mult_IZR, <- bpow_IZR by lia.
      rewrite Rminus_diag, Rabs_R0. split; [reflexivity|lra].
    + cbv zeta.
      set (k := 2 ^ (- e)).
      assert (Hk : 2 <= k).
      { unfold k. change 2 with (2 ^ 1) at 1. apply Z.pow_le_mono_r; lia. }
      pose proof (valid_mantissa_lt s m e Hv) as Hm.
      pose proof (Z.div_mod (Zpos m) k ltac:(lia)) as Hdm.
      pose proof (Z.mod_pos_bound (Zpos m) k ltac:(lia)) as Hr.
      set (q := Zpos m / k) in *. set (r := Zpos m mod k) in *.
      set (n := if k <=? 2 * r then q + 1 else q).
      assert (Hq : 0 <= q) by (apply Z.div_pos; lia).
      assert (Hn : 0 <= n /\ n < 2 ^ 53 /\ Z.abs (2 * (n * k - Zpos m)) <= k).
      { unfold n. destruct (Z.leb_spec k (2 * r)); nia. }
      destruct Hn as (Hn0 & Hn53 & Hnabs).
      assert (Hbe : bpow e = (/ IZR k)%R).
      { pose proof (bpow_opp e) as Ho. unfold k.
        rewrite <- bpow_IZR by lia.
        pose proof (bpow_pos (- e)).
        apply (Rmult_eq_reg_r (bpow (- e))); [|lra].
        rewrite Ho. field. lra. }
      pose proof (Rabs_le_half_of_Z n (Zpos m) k ltac:(lia) Hnabs) as Hhalf.
      exists (cond_Zopp s n).
      assert (Hdist : (Rabs (IZR (cond_Zopp s n) - F2R (S754_finite s m e))
                       <= / 2)%R).
      { rewrite F2R_finite, !IZR_cond_Zopp, Hbe. destruct s; [|assumption].
        replace (- IZR n - - IZR (Zpos m) * / IZR k)%R
          with (- (IZR n - IZR (Zpos m) * / IZR k))%R by ring.
        now rewrite Rabs_Ropp. }
      destruct n as [|p|p] eqn:En; [| |lia].
      * split; [reflexivity|]. split; [|assumption].
        simpl. destruct s; simpl; lra.
      * assert (HK : (IZR (Zpos p) * bpow 0 < bpow 53)%R).
        { rewrite bpow_0, Rmult_1_r, bpow_IZR by lia. now apply IZR_lt. }
        destruct (binary_round_R s p 0 53 HK ltac:(lia))
          as (_ & Hfin & _ & _ & _ & Hex).
        split; [assumption|]. split; [|assumption].
        rewrite Hex.
        -- rewrite bpow_0. ring.
        -- exists (cond_Zopp s (Zpos p)), 0.
           split; [lia|]. split; [destruct s; simpl; lia|reflexivity].
Qed.

Lemma to_int_integer (r : float64) (N : Z) :
  is_finite r = true -> F2R r = IZR N ->
  Int64.min_int <= N <= Int64.max_int ->
  F64.to_int r = N.
Proof.
  intros Hf HN Hrange.
  assert (Hb : Int64.in_rangeb N = true).
  { unfold Int64.in_rangeb. apply andb_true_iff.
    split; apply Z.leb_le; lia. }
  unfold F64.to_int.
  assert (Ht : F64.trunc r = Some N); [|now rewrite Ht, Hb].
  destruct r as [s|s| |s m e]; try discriminate; unfold F64.trunc.
  - simpl in HN. f_equal. apply eq_IZR. lra.
  - f_equal. rewrite F2R_finite in HN.
    destruct (Z.leb_spec 0 e) as [He|He].
    + rewrite <- (Rmult_1_r (IZR N)), <- bpow_0 in HN.
      symmetry in HN. apply scaled_eq_inv in HN; [|lia].
      rewrite Z.sub_0_r in HN. rewrite HN. destruct s; unfold cond_Zopp; ring.
    + rewrite <- (Rmult_1_r (IZR N)), <- bpow_0 in HN.
      apply scaled_eq_inv in HN; [|lia].
      rewrite Z.sub_0_l in HN.
      assert (Hk : 0 < 2 ^ (- e)) by (apply Z.pow_pos_nonneg; lia).
      destruct s; simpl cond_Zopp in *.
      * assert (HN' : Zpos m = (- N) * 2 ^ (- e)) by lia.
        rewrite HN', Z.div_mul by lia. lia.
      * rewrite HN, Z.div_mul by lia. reflexivity.
Qed.

Lemma to_int_Round (x : float64) :
  F64.valid x = true -> is_finite x = true ->
  (Rabs (F2R x) <= IZR (2 ^ 63 - 1))%R ->
  (Rabs (IZR (F64.to_int (F64.Round x)) - F2R x) <= / 2)%R.
Proof.
  intros Hv Hf Hb.
  destruct (Round_R x Hv Hf) as (N & HfR & HN & Hd).
  assert (Hrange : Int64.min_int <= N <= Int64.max_int).
  { assert (HabsN : (Rabs (IZR N) <= IZR (2 ^ 63 - 1) + / 2)%R).
    { replace (IZR N) with ((IZR N - F2R x) + F2R x)%R by ring.
      eapply Rle_trans; [apply Rabs_triang|]. lra. }
    rewrite <- abs_IZR in HabsN.
    assert (Z.abs N <= 2 ^ 63 - 1).
    { apply Z.lt_succ_r. apply lt_IZR.
      replace (Z.succ (2 ^ 63 - 1)) with (2 ^ 63 - 1 + 1) by lia.
      rewrite plus_IZR. lra. }
    unfold Int64.min_int, Int64.max_int. lia. }
  now rewrite (to_int_integer _ N HfR HN Hrange).
Qed.

(** ** The jitter multiplier *)

Lemma Rabs_le_inv (x y : R) : (Rabs x <= y)%R -> (- y <= x <= y)%R.
Proof. unfold Rabs. destruct (Rcase_abs x); lra. Qed.

Lemma rounding_of_err (x : R) (K e : Z) (r : float64) :
  rounding_of x K r -> -1021 <= K -> e = K - 54 ->
  F64.valid r = true /\ is_finite r = true /\
  (- bpow e <= F2R r - x <= bpow e)%R /\
  (0 <= x -> 0 <= F2R r)%R /\ (x <= 0 -> F2R r <= 0)%R.
Proof.
  intros (Hv & Hf & Herr & Hp & Hn & _) HK ->.
  replace (Z.max (K - 53) (-1074) - 1) with (K - 54) in Herr by lia.
  apply Rabs_le_inv in Herr. auto.
Qed.

Lemma jitter_R (u jf : float64) :
  unit_interval u = true -> unit_interval jf = true ->
  F64.valid (jitter u jf) = true /\ is_finite (jitter u jf) = true /\
  (Rabs (F2R (jitter u jf) - (1 + (F2R u - / 2) * F2R jf))
   <= / 4503599627370496)%R.
Proof.
  intros Hu Hj.
  apply unit_interval_R in Hu as (Hvu & Hfu & HU).
  apply unit_interval_R in Hj as (Hvj & Hfj & HJ).
  set (U := F2R u) in *. set (J := F2R jf) in *.
  unfold jitter.
  (* u - 0.5 *)
  assert (H1 : rounding_of (U - / 2) 0 (F64.sub u F64.half)).
  { unfold U. rewrite <- F2R_half.
    apply sub_R; auto; [rewrite F2R_half; fold U|lia].
    rewrite bpow_0. apply Rabs_def1; lra. }
  apply (rounding_of_err _ 0 (-54)) in H1 as (Hv1 & Hf1 & He1 & _); [|lia|lia].
  set (x1 := F64.sub u F64.half) in *. set (X1 := F2R x1) in *.
  (* (u - 0.5) * jf *)
  assert (HX1 : (- (/ 2 + / 18014398509481984) <= X1
                 <= / 2 + / 18014398509481984)%R) by (bpow_lit; lra).
  assert (H2 : rounding_of (X1 * J) 0 (F64.mul x1 jf)).
  { apply mul_R; auto; [|lia]. rewrite bpow_0. fold X1 J.
    assert (0 <= (1 + X1) * J)%R by (apply Rmult_le_pos; lra).
    assert (0 <= (1 - X1) * J)%R by (apply Rmult_le_pos; lra).
    apply Rabs_def1; lra. }
  apply (rounding_of_err _ 0 (-54)) in H2 as (Hv2 & Hf2 & He2 & _); [|lia|lia].
  set (x2 := F64.mul x1 jf) in *. set (X2 := F2R x2) in *.
  assert (HX1J : (- (/ 2 + / 18014398509481984) <= X1 * J
                  <= / 2 + / 18014398509481984)%R).
  { assert (0 <= (/ 2 + / 18014398509481984 + X1) * J)%R
      by (apply Rmult_le_pos; lra).
    assert (0 <= (/ 2 + / 18014398509481984 - X1) * J)%R
      by (apply Rmult_le_pos; lra).
    assert (0 <= (/ 2 + / 18014398509481984) * (1 - J))%R
      by (apply Rmult_le_pos; lra).
    lra. }
  (* 1.0 + ... *)
  assert (H3 : rounding_of (1 + X2) 1 (F64.add F64.one x2)).
  { rewrite <- F2R_one. apply add_R; auto; [rewrite F2R_one; fold X2|lia].
    bpow_lit. apply Rabs_def1; lra. }
  apply (rounding_of_err _ 1 (-53)) in H3 as (Hv3 & Hf3 & He3 & _); [|lia|lia].
  split; [assumption|]. split; [assumption|].
  bpow_lit. apply Rabs_le.
  assert (Hd : (Rabs ((X1 - (U - / 2)) * J) <= / 18014398509481984)%R).
  { rewrite Rabs_mult, (Rabs_pos_eq J) by lra.
    assert (Rabs (X1 - (U - / 2)) <= / 18014398509481984)%R
      by (apply Rabs_le; lra).
    pose proof (Rabs_pos (X1 - (U - / 2))).
    assert (0 <= (/ 18014398509481984 - Rabs (X1 - (U - / 2))) * J)%R
      by (apply Rmult_le_pos; lra).
    assert (0 <= / 18014398509481984 * (1 - J))%R
      by (apply Rmult_le_pos; lra).
    lra. }
  apply Rabs_le_inv in Hd.
  replace ((X1 - (U - / 2)) * J)%R with (X1 * J - (U - / 2) * J)%R in Hd by ring.
  lra.
Qed.

Lemma jitter_range (u jf : float64) :
  unit_interval u = true -> unit_interval jf = true ->
  (/ 4 < F2R (jitter u jf) < 7 / 4)%R.
Proof.
  intros Hu Hj. destruct (jitter_R u jf Hu Hj) as (_ & _ & He).
  apply unit_interval_R in Hu as (_ & _ & HU).
  apply unit_interval_R in Hj as (_ & _ & HJ).
  apply Rabs_le_inv in He.
  assert (0 <= (/ 2 + (F2R u - / 2)) * F2R jf)%R by (apply Rmult_le_pos; lra).
  assert (0 <= (/ 2 - (F2R u - / 2)) * F2R jf)%R by (apply Rmult_le_pos; lra).
  lra.
Qed.

Lemma jitter_zero (u : float64) (s : bool) :
  unit_interval u = true -> jitter u (S754_zero s) = F64.one.
Proof.
  intros Hu. apply unit_interval_R in Hu as (Hvu & Hfu & HU).
  assert (H1 : rounding_of (F2R u - F2R F64.half) 0 (F64.sub u F64.half)).
  { apply sub_R; auto; [|lia]. rewrite F2R_half, bpow_0.
    apply Rabs_def1; lra. }
  destruct H1 as (_ & Hf1 & _). unfold jitter.
  destruct (F64.sub u F64.half) as [s1|s1| |s1 m1 e1]; try discriminate;
    reflexivity.
Qed.

Lemma unit_interval_zero (jf : float64) :
  unit_interval jf = true -> F2R jf = 0%R -> exists s, jf = S754_zero s.
Proof.
  intros Hj H0. apply unit_interval_R in Hj as (_ & Hf & _).
  destruct jf as [s|s| |s m e]; try discriminate.
  - now exists s.
  - exfalso. rewrite F2R_finite, IZR_cond_Zopp in H0.
    pose proof (bpow_pos e).
    assert (0 < IZR (Zpos m))%R by (apply IZR_lt; lia).
    destruct s; nra.
Qed.

(** ** The returned delay *)

Lemma computeDelay_returns (w : World) :
  fst (computeDelay w) =
  jittered (stream (rng w) (drawn (rng w))) (jitterFactor (self w))
    (delay (self w)).
Proof.
  destruct w as [b r]. unfold computeDelay, bind, rand_Float64, load; simpl.
  destruct (delay b =? 0); simpl; [reflexivity|].
  destruct (delay b <? expLimit b); reflexivity.
Qed.

Lemma jittered_zero (u jf : float64) :
  unit_interval u = true -> unit_interval jf = true -> jittered u jf 0 = 0.
Proof.
  intros Hu Hj. destruct (jitter_R u jf Hu Hj) as (_ & Hf & _).
  unfold jittered, Nanoseconds.
  destruct (jitter u jf) as [s|s| |s m e]; try discriminate; reflexivity.
Qed.

(** C9.  When the nominal delay is 0, [computeDelay] returns exactly 0
    for every jitter factor in [[0,1)] and every draw in [[0,1)]. *)
Theorem zero_delay_returns_zero (w : World) :
  delay (self w) = 0 ->
  unit_interval (jitterFactor (self w)) = true ->
  unit_interval (stream (rng w) (drawn (rng w))) = true ->
  fst (computeDelay w) = 0.
Proof.
  intros Hd Hj Hu. rewrite computeDelay_returns, Hd.
  now apply jittered_zero.
Qed.

Lemma zero_delay_returns_zero_witness :
  let b := CoerceNew (map option_of [InitialDelay 0]) in
  let w := mkWorld b (constant_source F64.half) in
  (delay (self w) = 0 /\
   unit_interval (jitterFactor (self w)) = true /\
   unit_interval (stream (rng w) (drawn (rng w))) = true) /\
  fst (computeDelay w) = 0.
Proof.
  split.
  - repeat split; reflexivity.
  - apply (zero_delay_returns_zero
             (mkWorld (CoerceNew (map option_of [InitialDelay 0]))
                (constant_source F64.half))); reflexivity.
Defined.

Lemma of_int_bounds (d0 : Z) :
  0 <= d0 <= 2 ^ 62 ->
  F64.valid (F64.of_int d0) = true /\ is_finite (F64.of_int d0) = true /\
  (0 <= F2R (F64.of_int d0) <= IZR (2 ^ 62) + 512)%R.
Proof.
  intros Hd.
  assert (Hd0 : (0 <= IZR d0 <= IZR (2 ^ 62))%R) by (split; apply IZR_le; lia).
  assert (H : rounding_of (IZR d0) 63 (F64.of_int d0)).
  { apply of_int_R; [|lia]. bpow_lit.
    change (2 ^ 62) with 4611686018427387904 in Hd0.
    apply Rabs_def1; lra. }
  apply (rounding_of_err _ 63 9) in H as (Hv & Hf & He & Hp & _); [|lia|lia].
  bpow_lit. split; [assumption|]. split; [assumption|].
  split; [apply Hp|]; lra.
Qed.

Lemma jittered_nonneg (u jf : float64) (d0 : Z) :
  unit_interval u = true -> unit_interval jf = true ->
  0 <= d0 <= 2 ^ 62 -> 0 <= jittered u jf d0.
Proof.
  intros Hu Hj Hd.
  destruct (jitter_R u jf Hu Hj) as (Hvj & Hfj & _).
  pose proof (jitter_range u jf Hu Hj) as Hjr.
  destruct (of_int_bounds d0 Hd) as (HvD & HfD & HD).
  unfold jittered, Nanoseconds.
  set (j := jitter u jf) in *. set (D := F64.of_int d0) in *.
  set (FD := F2R D) in *. set (Fj := F2R j) in *.
  change (2 ^ 62) with 4611686018427387904 in HD.
  assert (Hprod : (0 <= FD * Fj <= (4611686018427387904 + 512) * (7 / 4))%R).
  { split; [apply Rmult_le_pos; lra|].
    apply Rmult_le_compat; lra. }
  assert (H : rounding_of (FD * Fj) 63 (F64.mul D j)).
  { apply mul_R; auto; [|lia]. fold FD Fj. bpow_lit. apply Rabs_def1; lra. }
  apply (rounding_of_err _ 63 9) in H as (Hv & Hf & He & Hp & _); [|lia|lia].
  set (d := F64.mul D j) in *. set (Fd := F2R d) in *.
  bpow_lit.
  assert (Hd0 : (0 <= Fd)%R) by (apply Hp; lra).
  assert (Hr : (Rabs (IZR (F64.to_int (F64.Round d)) - Fd) <= / 2)%R).
  { apply to_int_Round; auto. fold Fd.
    change (2 ^ 63 - 1) with 9223372036854775807.
    rewrite Rabs_pos_eq by assumption. lra. }
  apply Rabs_le_inv in Hr.
  assert (Hgt : (-1 < IZR (F64.to_int (F64.Round d)))%R) by lra.
  apply lt_IZR in Hgt. lia.
Qed.

(** C10 as stated fails at the top of the duration range: with nominal
    delay [2^63 - 1] ns, jitter factor 0 and draw 0 the product is
    [2^63], which no [int64] holds, and the conversion yields
    [-2^63]. *)
Lemma conversion_overflow_counterexample :
  let l := [InitialDelay (2 ^ 63 - 1); JitterFactor F64.zero] in
  let b := CoerceNew (map option_of l) in
  let w := mkWorld b (constant_source F64.zero) in
  fst (New (map option_of l)) = Some b /\
  0 <= delay (self w) /\
  unit_interval (jitterFactor (self w)) = true /\
  unit_interval (stream (rng w) (drawn (rng w))) = true /\
  fst (computeDelay w) = - 2 ^ 63 /\
  fst (computeDelay w) < 0.
Proof. vm_compute. repeat split; congruence. Qed.

(** C10 (amended).  For a nominal delay between 0 and [2^62] ns, every
    jitter factor in [[0,1)] and every draw in [[0,1)], the value
    [computeDelay] returns is non-negative. *)
Theorem returned_delay_nonnegative (w : World) :
  0 <= delay (self w) <= 2 ^ 62 ->
  unit_interval (jitterFactor (self w)) = true ->
  unit_interval (stream (rng w) (drawn (rng w))) = true ->
  0 <= fst (computeDelay w).
Proof.
  intros Hd Hj Hu. rewrite computeDelay_returns.
  now apply jittered_nonneg.
Qed.

Lemma returned_delay_nonnegative_witness :
  let b := CoerceNew (map option_of [InitialDelay (Millisecond * 500)]) in
  let w := mkWorld b (constant_source F64.zero) in
  (0 <= delay (self w) <= 2 ^ 62 /\
   unit_interval (jitterFactor (self w)) = true /\
   unit_interval (stream (rng w) (drawn (rng w))) = true) /\
  0 <= fst (computeDelay w).
Proof.
  split.
  - repeat split; vm_compute; congruence.
  - apply (returned_delay_nonnegative
             (mkWorld
                (CoerceNew (map option_of [InitialDelay (Millisecond * 500)]))
                (constant_source F64.zero))).
    + split; vm_compute; congruence.
    + reflexivity.
    + reflexivity.
Defined.

(** ** Jitter bounds *)

Lemma representable_int (d0 : Z) : 0 <= d0 <= 2 ^ 53 -> representable (IZR d0).
Proof.
  intros Hd. destruct (Z.eq_dec d0 (2 ^ 53)) as [->|Hne].
  - exists (2 ^ 52), 1. split; [lia|]. split; [reflexivity|].
    bpow_lit. change (2 ^ 53) with 9007199254740992.
    change (2 ^ 52) with 4503599627370496. lra.
  - exists d0, 0. split; [lia|]. split; [lia|]. rewrite bpow_0. ring.
Qed.

Lemma of_int_exact (d0 : Z) :
  0 <= d0 <= 2 ^ 53 ->
  F64.valid (F64.of_int d0) = true /\ is_finite (F64.of_int d0) = true /\
  F2R (F64.of_int d0) = IZR d0.
Proof.
  intros Hd.
  assert (Hd0 : (0 <= IZR d0 <= IZR (2 ^ 53))%R) by (split; apply IZR_le; lia).
  change (2 ^ 53) with 9007199254740992 in Hd0.
  assert (H : rounding_of (IZR d0) 54 (F64.of_int d0)).
  { apply of_int_R; [|lia]. bpow_lit. apply Rabs_def1; lra. }
  destruct H as (Hv & Hf & _ & _ & _ & Hex).
  split; [assumption|]. split; [assumption|].
  apply Hex. now apply representable_int.
Qed.

Lemma jittered_exact (u : float64) (s : bool) (d0 : Z) :
  unit_interval u = true -> 0 <= d0 <= 2 ^ 53 ->
  jittered u (S754_zero s) d0 = d0.
Proof.
  intros Hu Hd. unfold jittered, Nanoseconds.
  rewrite (jitter_zero u s Hu).
  destruct (of_int_exact d0 Hd) as (HvD & HfD & HD).
  assert (Hd0 : (0 <= IZR d0 <= IZR (2 ^ 53))%R) by (split; apply IZR_le; lia).
  change (2 ^ 53) with 9007199254740992 in Hd0.
  assert (H : rounding_of (F2R (F64.of_int d0) * F2R F64.one) 54
                (F64.mul (F64.of_int d0) F64.one)).
  { apply mul_R; auto; [|lia]. rewrite HD, F2R_one, Rmult_1_r.
    bpow_lit. apply Rabs_def1; lra. }
  rewrite HD, F2R_one, Rmult_1_r in H.
  destruct H as (Hv & Hf & _ & _ & _ & Hex).
  specialize (Hex (representable_int d0 Hd)).
  assert (Hr : (Rabs (IZR (F64.to_int (F64.Round (F64.mul (F64.of_int d0) F64.one)))
                      - F2R (F64.mul (F64.of_int d0) F64.one)) <= / 2)%R).
  { apply to_int_Round; auto. rewrite Hex.
    change (2 ^ 63 - 1) with 9223372036854775807.
    rewrite Rabs_pos_eq; lra. }
  rewrite Hex, <- minus_IZR in Hr. apply Rabs_le_inv in Hr.
  assert (H1 : (IZR (-1) < IZR (F64.to_int
             (F64.Round (F64.mul (F64.of_int d0) F64.one)) - d0))%R) by lra.
  assert (H2 : (IZR (F64.to_int
             (F64.Round (F64.mul (F64.of_int d0) F64.one)) - d0) < IZR 1)%R) by lra.
  apply lt_IZR in H1, H2. lia.
Qed.

Lemma jittered_close (u jf : float64) (d0 : Z) :
  unit_interval u = true -> unit_interval jf = true ->
  0 <= d0 <= 2 ^ 50 ->
  (Rabs (IZR (jittered u jf d0) - IZR d0 * (1 + (F2R u - / 2) * F2R jf))
   <= 7 / 8)%R.
Proof.
  intros Hu Hj Hd.
  destruct (jitter_R u jf Hu Hj) as (Hvj & Hfj & Hej).
  pose proof (jitter_range u jf Hu Hj) as Hjr.
  destruct (of_int_exact d0 ltac:(lia)) as (HvD & HfD & HD).
  assert (Hd0 : (0 <= IZR d0 <= IZR (2 ^ 50))%R) by (split; apply IZR_le; lia).
  change (2 ^ 50) with 1125899906842624 in Hd0.
  unfold jittered, Nanoseconds.
  set (t := (1 + (F2R u - / 2) * F2R jf)%R) in *.
  set (j := jitter u jf) in *. set (D := F64.of_int d0) in *.
  set (Fj := F2R j) in *.
  assert (Hprod : (0 <= IZR d0 * Fj <= 1125899906842624 * (7 / 4))%R).
  { split; [apply Rmult_le_pos; lra|]. apply Rmult_le_compat; lra. }
  assert (H : rounding_of (F2R D * Fj) 51 (F64.mul D j)).
  { apply mul_R; auto; [|lia]. fold Fj. rewrite HD. bpow_lit.
    apply Rabs_def1; lra. }
  rewrite HD in H.
  apply (rounding_of_err _ 51 (-3)) in H as (Hv & Hf & He & Hp & _); [|lia|lia].
  set (d := F64.mul D j) in *. set (Fd := F2R d) in *.
  bpow_lit.
  assert (Hd1 : (0 <= Fd)%R) by (apply Hp; lra).
  assert (Hr : (Rabs (IZR (F64.to_int (F64.Round d)) - Fd) <= / 2)%R).
  { apply to_int_Round; auto. fold Fd.
    change (2 ^ 63 - 1) with 9223372036854775807.
    rewrite Rabs_pos_eq by assumption. lra. }
  apply Rabs_le_inv in Hr. apply Rabs_le_inv in Hej.
  assert (Hm1 : (0 <= IZR d0 * (/ 4503599627370496 - (Fj - t)))%R)
    by (apply Rmult_le_pos; lra).
  assert (Hm2 : (0 <= IZR d0 * (/ 4503599627370496 + (Fj - t)))%R)
    by (apply Rmult_le_pos; lra).
  apply Rabs_le. lra.
Qed.

(** C5 as stated fails above [2^53] ns, where [float64] no longer holds
    every integer: with nominal delay [2^62 + 300] ns, jitter factor 0
    and any draw, the value returned is [2^62], which is 300 ns below
    the only value the claimed interval contains. *)
Lemma precision_loss_counterexample :
  let l := [InitialDelay (2 ^ 62 + 300); JitterFactor F64.zero] in
  let b := CoerceNew (map option_of l) in
  let w := mkWorld b (constant_source F64.half) in
  fst (New (map option_of l)) = Some b /\
  0 < delay (self w) /\
  jitterFactor (self w) = F64.zero /\
  unit_interval (stream (rng w) (drawn (rng w))) = true /\
  fst (computeDelay w) = 2 ^ 62 /\
  fst (computeDelay w) <> delay (self w) /\
  delay (self w) - fst (computeDelay w) = 300.
Proof. vm_compute. repeat split; congruence. Qed.

(** C5 (amended).  For a jitter factor [j] and a draw [u] in [[0,1)]:
    when the nominal delay [d0] is positive and at most [2^50] ns, the
    value returned is within one time unit of [d0 * (1 + (u - 1/2) * j)]
    and so lies strictly between [d0 * (1 - j/2) - 1] and
    [d0 * (1 + j/2) + 1]; when [j = 0] and [d0] is positive and at most
    [2^53] ns, the value returned is exactly [d0]. *)
Theorem returned_delay_within_jitter (w : World) :
  let d0 := delay (self w) in
  let jf := jitterFactor (self w) in
  let u := stream (rng w) (drawn (rng w)) in
  let ret := fst (computeDelay w) in
  0 < d0 -> unit_interval jf = true -> unit_interval u = true ->
  (d0 <= 2 ^ 50 ->
     (Rabs (IZR ret - IZR d0 * (1 + (F2R u - / 2) * F2R jf)) < 1)%R /\
     (IZR d0 * (1 - F2R jf / 2) - 1 < IZR ret
      < IZR d0 * (1 + F2R jf / 2) + 1)%R) /\
  (d0 <= 2 ^ 53 -> F2R jf = 0%R -> ret = d0).
Proof.
  intros d0 jf u ret Hd Hj Hu. unfold ret. rewrite computeDelay_returns.
  fold d0 jf u. split.
  - intros Hd50.
    pose proof (jittered_close u jf d0 Hu Hj ltac:(lia)) as Hc.
    pose proof Hu as Hu'. pose proof Hj as Hj'.
    apply unit_interval_R in Hu' as (_ & _ & HU).
    apply unit_interval_R in Hj' as (_ & _ & HJ).
    assert (Hd0 : (0 < IZR d0)%R) by (apply IZR_lt; lia).
    split.
    + eapply Rle_lt_trans; [exact Hc|lra].
    + apply Rabs_le_inv in Hc.
      assert (0 <= IZR d0 * (F2R u * F2R jf))%R
        by (apply Rmult_le_pos; [lra|apply Rmult_le_pos; lra]).
      assert (0 <= IZR d0 * ((1 - F2R u) * F2R jf))%R
        by (apply Rmult_le_pos; [lra|apply Rmult_le_pos; lra]).
      lra.
  - intros Hd53 H0.
    destruct (unit_interval_zero jf Hj H0) as [s ->].
    apply jittered_exact; [assumption|lia].
Qed.

Lemma returned_delay_within_jitter_witness :
  let b := CoerceNew (map option_of [InitialDelay (Millisecond * 500)]) in
  let w := mkWorld b (constant_source F64.half) in
  let d0 := delay (self w) in
  let jf := jitterFactor (self w) in
  let u := stream (rng w) (drawn (rng w)) in
  let ret := fst (computeDelay w) in
  (0 < d0 /\ unit_interval jf = true /\ unit_interval u = true) /\
  (d0 <= 2 ^ 50 ->
     (Rabs (IZR ret - IZR d0 * (1 + (F2R u - / 2) * F2R jf)) < 1)%R /\
     (IZR d0 * (1 - F2R jf / 2) - 1 < IZR ret
      < IZR d0 * (1 + F2R jf / 2) + 1)%R) /\
  (d0 <= 2 ^ 53 -> F2R jf = 0%R -> ret = d0).
Proof.
  split.
  - repeat split; reflexivity.
  - apply (returned_delay_within_jitter
             (mkWorld
                (CoerceNew (map option_of [InitialDelay (Millisecond * 500)]))
                (constant_source F64.half))); reflexivity.
Defined.

(** * Further properties of construction *)

Lemma New_loop_valid (l : list setting) (b : Backoff) :
  forallb satisfies l = true ->
  New_loop (map option_of l) b None =
  (CoerceNew_loop (map option_of l) b, None).
Proof.
  intros Hall. rewrite (New_loop_fst l b None Hall). f_equal.
  pose proof (New_loop_joined l b None [] eq_refl) as HJ.
  apply complaints_nil_iff in Hall. rewrite Hall in HJ. simpl in HJ.
  destruct (snd (New_loop (map option_of l) b None)) as [e|]; [|reflexivity].
  simpl in HJ. now destruct HJ as [Hne _].
Qed.

Lemma New_fst (l : list setting) :
  fst (New (map option_of l)) =
  if forallb satisfies l then Some (CoerceNew (map option_of l)) else None.
Proof.
  unfold New, CoerceNew. destruct (forallb satisfies l) eqn:Hall.
  - now rewrite New_loop_valid.
  - pose proof (New_loop_joined l defaultBackoff None [] eq_refl) as HJ.
    destruct (New_loop (map option_of l) defaultBackoff None) as [b errs].
    simpl in HJ. destruct errs as [e|]; [reflexivity|].
    simpl in HJ. apply complaints_nil_iff in HJ. congruence.
Qed.

Lemma coerced_valid (s : setting) : forallb satisfies (coerced s) = true.
Proof.
  destruct s as [d|d|d|jf]; simpl.
  - destruct (Z.leb_spec 0 d); simpl; [|reflexivity].
    rewrite andb_true_r. now apply Z.leb_le.
  - destruct (0 <? d) eqn:E; simpl; [now rewrite E|reflexivity].
  - destruct (Z.leb_spec 0 d); simpl; [|reflexivity].
    rewrite andb_true_r. now apply Z.leb_le.
  - unfold F64.geb.
    destruct (F64.leb F64.zero jf && F64.ltb jf F64.one) eqn:E; simpl.
    + now rewrite E.
    + now destruct (F64.ltb jf F64.zero).
Qed.

Lemma coerced_step (s : setting) (b : Backoff) :
  CoerceNew_loop (map option_of (coerced s)) b = fst (option_of s b true).
Proof.
  destruct s as [d|d|d|jf]; simpl;
    unfold WithInitialDelay, WithBaseDelay, WithExponentialLimit,
      WithJitterFactor, F64.geb.
  - destruct (Z.leb_spec 0 d) as [H|H]; simpl.
    + apply Z.leb_le in H. now rewrite H.
    + reflexivity.
  - destruct (0 <? d) eqn:E; simpl; [|reflexivity].
    unfold WithBaseDelay. now rewrite E.
  - destruct (Z.leb_spec 0 d) as [H|H]; simpl.
    + apply Z.leb_le in H. now rewrite H.
    + reflexivity.
  - destruct (F64.leb F64.zero jf && F64.ltb jf F64.one) eqn:E; simpl.
    + unfold WithJitterFactor, F64.geb. now rewrite E.
    + destruct (F64.ltb jf F64.zero); reflexivity.
Qed.

Lemma coerced_loop (l : list setting) :
  forall b,
  CoerceNew_loop (map option_of (flat_map coerced l)) b =
  CoerceNew_loop (map option_of l) b.
Proof.
  induction l as [|s l IH]; intros b; simpl; [reflexivity|].
  now rewrite map_app, CoerceNew_loop_app, coerced_step, IH.
Qed.

(** X1.  Coercing construction is strict construction on the coerced
    settings: replacing every setting by what coercion makes of it
    gives a configuration on which [New] succeeds, and the object it
    returns is the one [CoerceNew] builds from the original settings. *)
Theorem CoerceNew_is_New_on_coerced (l : list setting) :
  New (map option_of (flat_map coerced l)) =
  (Some (CoerceNew (map option_of l)), None).
Proof.
  assert (Hall : forallb satisfies (flat_map coerced l) = true).
  { induction l as [|s l IH]; [reflexivity|]. simpl.
    rewrite forallb_app, coerced_valid, IH. reflexivity. }
  unfold New, CoerceNew. rewrite New_loop_valid by assumption.
  now rewrite coerced_loop.
Qed.

(** X2.  Whatever object [New] returns satisfies every invariant, and
    it returns one only when no setting was violated, with a nil
    error. *)
Theorem New_returns_wellformed (l : list setting) (b : Backoff) :
  fst (New (map option_of l)) = Some b ->
  wellformed b /\ forallb satisfies l = true /\
  snd (New (map option_of l)) = None.
Proof.
  intros HN. rewrite New_fst in HN.
  destruct (forallb satisfies l) eqn:Hall; [|discriminate].
  injection HN as <-. split; [|split; [reflexivity|]].
  - apply CoerceNew_loop_wellformed, defaultBackoff_wellformed.
  - unfold New. now rewrite New_loop_valid.
Qed.

Lemma New_returns_wellformed_witness :
  let l := [InitialDelay 0; JitterFactor F64.half] in
  let b := mkBackoff 0 defaultBaseDelay defaultExpLimit F64.half in
  fst (New (map option_of l)) = Some b /\
  wellformed b /\ forallb satisfies l = true /\
  snd (New (map option_of l)) = None.
Proof.
  split; [reflexivity|].
  apply (New_returns_wellformed [InitialDelay 0; JitterFactor F64.half]).
  reflexivity.
Defined.

Lemma coerce_steps_commute (s t : setting) (b : Backoff) :
  same_field s t = false ->
  fst (option_of t (fst (option_of s b true)) true) =
  fst (option_of s (fst (option_of t b true)) true).
Proof.
  destruct s, t; simpl; try discriminate; intros _;
    unfold WithInitialDelay, WithBaseDelay, WithExponentialLimit,
      WithJitterFactor;
    repeat match goal with
           | |- context [if ?c then _ else _] => destruct c
           end; reflexivity.
Qed.

Lemma same_field_neq (s t : setting) :
  field_of s <> field_of t -> same_field s t = false.
Proof.
  unfold same_field. destruct (field_of s), (field_of t);
    intros H; try reflexivity; now elim H.
Qed.

Lemma CoerceNew_loop_perm (l l' : list setting) :
  Permutation l l' -> NoDup (map field_of l) ->
  forall b,
  CoerceNew_loop (map option_of l) b = CoerceNew_loop (map option_of l') b.
Proof.
  induction 1 as [|x l l' HP IH|x y l|l l' l'' HP1 IH1 HP2 IH2];
    intros Hnd b; simpl.
  - reflexivity.
  - apply IH. now inversion Hnd.
  - f_equal. apply coerce_steps_commute.
    apply same_field_neq. inversion Hnd as [|? ? Hnin _]; subst.
    intros Heq. apply Hnin. simpl. now left.
  - rewrite IH1 by assumption. apply IH2.
    apply (Permutation_NoDup (l := map field_of l)); [|assumption].
    now apply Permutation_map.
Qed.

Lemma forallb_perm {A : Type} (f : A -> bool) (l l' : list A) :
  Permutation l l' -> forallb f l = forallb f l'.
Proof.
  induction 1; simpl; try congruence.
  now rewrite !andb_assoc, (andb_comm (f y)).
Qed.

(** X3.  When no two supplied settings are for the same field, their
    order does not matter: both constructors return the same object
    (or, for [New], fail alike) on every reordering of the list. *)
Theorem construction_ignores_order (l l' : list setting) :
  Permutation l l' -> NoDup (map field_of l) ->
  CoerceNew (map option_of l) = CoerceNew (map option_of l') /\
  fst (New (map option_of l)) = fst (New (map option_of l')).
Proof.
  intros HP Hnd.
  assert (HC : CoerceNew (map option_of l) = CoerceNew (map option_of l'))
    by now apply CoerceNew_loop_perm.
  split; [assumption|].
  now rewrite !New_fst, HC, (forallb_perm satisfies l l' HP).
Qed.

Lemma construction_ignores_order_witness :
  let l := [InitialDelay (-1); BaseDelay 200; JitterFactor F64.one] in
  let l' := [JitterFactor F64.one; InitialDelay (-1); BaseDelay 200] in
  (Permutation l l' /\ NoDup (map field_of l)) /\
  CoerceNew (map option_of l) = CoerceNew (map option_of l') /\
  fst (New (map option_of l)) = fst (New (map option_of l')).
Proof.
  assert (HP : Permutation
                 [InitialDelay (-1); BaseDelay 200; JitterFactor F64.one]
                 [JitterFactor F64.one; InitialDelay (-1); BaseDelay 200]).
  { apply Permutation_sym.
    apply (Permutation_cons_app [InitialDelay (-1); BaseDelay 200] []).
    apply Permutation_refl. }
  assert (Hnd : NoDup (map field_of
                 [InitialDelay (-1); BaseDelay 200; JitterFactor F64.one])).
  { simpl. repeat constructor; simpl; intuition discriminate. }
  split; [split; assumption|].
  apply (construction_ignores_order
           [InitialDelay (-1); BaseDelay 200; JitterFactor F64.one]
           [JitterFactor F64.one; InitialDelay (-1); BaseDelay 200]);
    assumption.
Defined.

Lemma valid_step_holds (t : setting) (b : Backoff) (c : bool) :
  satisfies t = true -> holds t (fst (option_of t b c)).
Proof.
  destruct t as [d|d|d|jf]; simpl; intros Hs;
    unfold WithInitialDelay, WithBaseDelay, WithExponentialLimit,
      WithJitterFactor, F64.geb; rewrite Hs; reflexivity.
Qed.

Lemma holds_agree (t : setting) (b b' : Backoff) :
  agree_on (field_of t) b b' -> holds t b -> holds t b'.
Proof. destruct t; simpl; congruence. Qed.

(** X4.  A valid setting that is the last one supplied for its field
    decides that field of the object [CoerceNew] returns, whatever was
    supplied before it: later settings override earlier ones. *)
Theorem last_valid_setting_wins (l1 l2 : list setting) (t : setting) :
  satisfies t = true ->
  (forall u, In u l2 -> same_field t u = false) ->
  holds t (CoerceNew (map option_of (l1 ++ t :: l2))).
Proof.
  intros Hs Hl2. unfold CoerceNew.
  rewrite map_app, CoerceNew_loop_app. simpl.
  eapply holds_agree.
  - apply CoerceNew_loop_other_fields. exact Hl2.
  - now apply valid_step_holds.
Qed.

Lemma last_valid_setting_wins_witness :
  let l1 := [BaseDelay 300; InitialDelay 7; BaseDelay (-5)] in
  let l2 := [InitialDelay 9; JitterFactor F64.one] in
  let t := BaseDelay 200 in
  (satisfies t = true /\ forall u, In u l2 -> same_field t u = false) /\
  holds t (CoerceNew (map option_of (l1 ++ t :: l2))).
Proof.
  assert (H2 : forall u, In u [InitialDelay 9; JitterFactor F64.one] ->
                         same_field (BaseDelay 200) u = false).
  { intros u [<-|[<-|[]]]; reflexivity. }
  split; [split; [reflexivity|exact H2]|].
  apply (last_valid_setting_wins
           [BaseDelay 300; InitialDelay 7; BaseDelay (-5)]
           [InitialDelay 9; JitterFactor F64.one] (BaseDelay 200)).
  - reflexivity.
  - exact H2.
Defined.

(** * Further properties of the delay sequence *)

Lemma advances_frame (n : nat) :
  forall w : World,
  baseDelay (self (snd (advances n w))) = baseDelay (self w) /\
  expLimit (self (snd (advances n w))) = expLimit (self w) /\
  jitterFactor (self (snd (advances n w))) = jitterFactor (self w) /\
  rng (snd (advances n w)) =
    mkRand (stream (rng w)) (drawn (rng w) + n)%nat.
Proof.
  induction n as [|n IH]; intros w.
  - simpl. rewrite Nat.add_0_r. now destruct (rng w).
  - rewrite advances_S. simpl.
    destruct (IH (snd (computeDelay w))) as (H1 & H2 & H3 & H4).
    rewrite H1, H2, H3, H4, computeDelay_run. simpl.
    repeat split. f_equal. lia.
Qed.

Lemma advances_snoc (n : nat) :
  forall w : World,
  snd (advances (S n) w) = snd (computeDelay (snd (advances n w))).
Proof.
  induction n as [|n IH]; intros w.
  - rewrite advances_S. reflexivity.
  - rewrite (advances_S (S n) w). cbn [snd]. rewrite IH.
    rewrite (advances_S n w). reflexivity.
Qed.

Lemma nominal_at_next (n : nat) (w : World) :
  nominal_at (S n) w =
  grow (nominal_at n w) (baseDelay (self w)) (expLimit (self w)).
Proof.
  unfold nominal_at. rewrite advances_snoc.
  destruct (computeDelay_fields (snd (advances n w))) as (H & _).
  destruct (advances_frame n w) as (H1 & H2 & _).
  now rewrite H, H1, H2.
Qed.

(** X5.  Saturation: once the nominal delay is non-zero and not below
    the limit, no number of advances changes any field of the
    object. *)
Theorem saturated_object_is_stable (n : nat) (w : World) :
  delay (self w) <> 0 -> expLimit (self w) <= delay (self w) ->
  self (snd (advances n w)) = self w.
Proof.
  revert w. induction n as [|n IH]; intros w Hnz Hge; [reflexivity|].
  rewrite advances_S. simpl snd.
  assert (Hself : self (snd (computeDelay w)) = self w).
  { rewrite computeDelay_run. simpl.
    destruct (grow_cases (delay (self w)) (baseDelay (self w))
                (expLimit (self w))) as (_ & _ & G).
    rewrite G by assumption. apply set_delay_same. }
  rewrite IH; rewrite Hself; auto.
Qed.

Lemma saturated_object_is_stable_witness :
  let w := mkWorld (CoerceNew [WithInitialDelay 64; WithExponentialLimit 64])
             (constant_source F64.half) in
  (delay (self w) <> 0 /\ expLimit (self w) <= delay (self w)) /\
  self (snd (advances 25 w)) = self w.
Proof.
  split.
  - split; vm_compute; congruence.
  - apply (saturated_object_is_stable 25
             (mkWorld (CoerceNew [WithInitialDelay 64; WithExponentialLimit 64])
                (constant_source F64.half))); vm_compute; congruence.
Defined.

(** X6.  With exponential limit 0 the delay never grows: after the
    first advance the nominal delay is the initial delay for good, or
    the base delay when the initial delay was 0. *)
Theorem zero_limit_never_grows (n : nat) (w : World) :
  expLimit (self w) = 0 -> 0 <= delay (self w) -> 0 < baseDelay (self w) ->
  nominal_at (S n) w =
  if delay (self w) =? 0 then baseDelay (self w) else delay (self w).
Proof.
  intros HL Hd Hb.
  set (T := if delay (self w) =? 0 then baseDelay (self w) else delay (self w)).
  assert (HT : T <> 0 /\ 0 <= T /\
               grow (delay (self w)) (baseDelay (self w)) 0 = T).
  { unfold T, grow. destruct (Z.eqb_spec (delay (self w)) 0); [lia|].
    destruct (Z.ltb_spec (delay (self w)) 0); lia. }
  destruct HT as (HT1 & HT2 & HT3).
  induction n as [|n IH].
  - rewrite nominal_at_next, HL. exact HT3.
  - rewrite nominal_at_next, IH, HL.
    apply grow_cases; assumption.
Qed.

Lemma zero_limit_never_grows_witness :
  let w := mkWorld (CoerceNew [WithInitialDelay 0; WithBaseDelay 300;
                               WithExponentialLimit 0])
             (constant_source F64.half) in
  (expLimit (self w) = 0 /\ 0 <= delay (self w) /\ 0 < baseDelay (self w)) /\
  nominal_at 8 w = 300.
Proof.
  split.
  - repeat split; vm_compute; congruence.
  - apply (zero_limit_never_grows 7
             (mkWorld (CoerceNew [WithInitialDelay 0; WithBaseDelay 300;
                                  WithExponentialLimit 0])
                (constant_source F64.half))); vm_compute; congruence.
Defined.

Lemma nominal_at_nonneg (n : nat) (w : World) :
  0 <= delay (self w) -> 0 < baseDelay (self w) ->
  expLimit (self w) <= 2 ^ 62 ->
  0 <= nominal_at n w.
Proof. intros. unfold nominal_at. now apply advances_nonneg. Qed.

(** X7.  Backoff never shrinks: for a non-negative delay, a positive
    base delay and a limit of at most [2^62] ns, each advance leaves
    the nominal delay where it was or makes it larger. *)
Theorem nominal_delay_never_decreases (n : nat) (w : World) :
  0 <= delay (self w) -> 0 < baseDelay (self w) ->
  expLimit (self w) <= 2 ^ 62 ->
  nominal_at n w <= nominal_at (S n) w.
Proof.
  intros Hd Hb HL. rewrite nominal_at_next.
  pose proof (nominal_at_nonneg n w Hd Hb HL) as H0.
  set (d := nominal_at n w) in *.
  unfold grow, Int64.mul.
  destruct (Z.eqb_spec d 0); [lia|].
  destruct (Z.ltb_spec d (expLimit (self w))); [|lia].
  rewrite wrap_small; lia.
Qed.

Lemma nominal_delay_never_decreases_witness :
  let w := mkWorld (CoerceNew [WithInitialDelay 0; WithBaseDelay 300])
             (constant_source F64.half) in
  (0 <= delay (self w) /\ 0 < baseDelay (self w) /\
   expLimit (self w) <= 2 ^ 62) /\
  nominal_at 5 w <= nominal_at 6 w.
Proof.
  split.
  - repeat split; vm_compute; congruence.
  - apply (nominal_delay_never_decreases 5
             (mkWorld (CoerceNew [WithInitialDelay 0; WithBaseDelay 300])
                (constant_source F64.half))); vm_compute; congruence.
Defined.

Lemma nominal_in_range (n : nat) (w : World) (B : Z) :
  0 <= delay (self w) <= B -> 0 < baseDelay (self w) <= B ->
  2 * expLimit (self w) - 2 <= B -> expLimit (self w) <= 2 ^ 62 ->
  0 <= nominal_at n w <= B.
Proof.
  intros Hd Hb HB HL. induction n as [|n IH].
  - unfold nominal_at. simpl. lia.
  - rewrite nominal_at_next.
    set (d := nominal_at n w) in *.
    unfold grow, Int64.mul.
    destruct (Z.eqb_spec d 0); [lia|].
    destruct (Z.ltb_spec d (expLimit (self w))); [|lia].
    rewrite wrap_small; lia.
Qed.

(** X8.  The nominal delay overshoots the limit by less than a factor
    of two: under the same conditions it never exceeds the largest of
    the initial delay, the base delay and [2 * limit - 2]. *)
Theorem nominal_delay_bounded (n : nat) (w : World) :
  0 <= delay (self w) -> 0 < baseDelay (self w) ->
  expLimit (self w) <= 2 ^ 62 ->
  nominal_at n w <=
  Z.max (Z.max (delay (self w)) (baseDelay (self w)))
    (2 * expLimit (self w) - 2).
Proof.
  intros Hd Hb HL.
  apply (nominal_in_range n w
           (Z.max (Z.max (delay (self w)) (baseDelay (self w)))
              (2 * expLimit (self w) - 2))); lia.
Qed.

Lemma nominal_delay_bounded_witness :
  let w := mkWorld (CoerceNew [WithInitialDelay 3; WithBaseDelay 300;
                               WithExponentialLimit 1000])
             (constant_source F64.half) in
  (0 <= delay (self w) /\ 0 < baseDelay (self w) /\
   expLimit (self w) <= 2 ^ 62) /\
  nominal_at 40 w <= 1998.
Proof.
  split.
  - repeat split; vm_compute; congruence.
  - apply (nominal_delay_bounded 40
             (mkWorld (CoerceNew [WithInitialDelay 3; WithBaseDelay 300;
                                  WithExponentialLimit 1000])
                (constant_source F64.half))); vm_compute; congruence.
Defined.

Lemma advances_returns (n : nat) :
  forall w : World,
  fst (advances n w) =
    map (fun i => jittered (stream (rng w) (drawn (rng w) + i)%nat)
                    (jitterFactor (self w)) (nominal_at i w))
      (seq 0 n).
Proof.
  induction n as [|n IH]; intros w; [reflexivity|].
  rewrite advances_S. simpl fst. rewrite <- cons_seq. simpl map.
  f_equal.
  - rewrite computeDelay_returns, Nat.add_0_r. reflexivity.
  - rewrite IH, <- seq_shift, map_map. apply map_ext. intros i.
    rewrite nominal_at_S, computeDelay_run. simpl.
    do 2 f_equal. lia.
Qed.

(** X9.  A run of [n] advances draws exactly [n] times, in order, and
    never touches the stream: the [i]-th value returned is the jitter
    of the [i]-th nominal delay by the [i]-th pending draw. *)
Theorem advances_use_one_draw_each (n : nat) (w : World) :
  fst (advances n w) =
    map (fun i => jittered (stream (rng w) (drawn (rng w) + i)%nat)
                    (jitterFactor (self w)) (nominal_at i w))
      (seq 0 n) /\
  rng (snd (advances n w)) = mkRand (stream (rng w)) (drawn (rng w) + n)%nat.
Proof.
  split; [apply advances_returns|].
  destruct (advances_frame n w) as (_ & _ & _ & H). exact H.
Qed.

(** * Further properties of the returned delays *)

Lemma rounds_spec (n : nat) :
  forall w : World,
  fst (rounds n w) =
  map (fun i =>
         (nominal_at i w,
          jittered (stream (rng w) (drawn (rng w) + i)%nat)
            (jitterFactor (self w)) (nominal_at i w)))
    (seq 0 n).
Proof.
  induction n as [|n IH]; intros w; [reflexivity|].
  rewrite rounds_S. simpl fst. rewrite <- cons_seq. simpl map.
  f_equal.
  - rewrite computeDelay_returns, Nat.add_0_r. reflexivity.
  - rewrite IH, <- seq_shift, map_map. apply map_ext. intros i.
    rewrite nominal_at_S, computeDelay_run. simpl.
    do 3 f_equal. lia.
Qed.

Lemma three_tenths_value :
  unit_interval F64.three_tenths = true /\
  (0 <= F2R F64.three_tenths <= 3 / 10)%R.
Proof.
  split; [reflexivity|].
  unfold F64.three_tenths, F2R, cond_Zopp. bpow_lit. lra.
Qed.

Lemma jittered_within_15 (u : float64) (d0 : Z) :
  unit_interval u = true -> 0 <= d0 <= 2 ^ 50 ->
  within_15_percent d0 (jittered u F64.three_tenths d0).
Proof.
  intros Hu Hd. destruct three_tenths_value as [Hj HJ].
  pose proof (jittered_close u F64.three_tenths d0 Hu Hj Hd) as Hc.
  apply unit_interval_R in Hu as (_ & _ & HU).
  apply Rabs_le_inv in Hc.
  set (r := jittered u F64.three_tenths d0) in *.
  set (J := F2R F64.three_tenths) in *. set (U := F2R u) in *.
  assert (Hd0 : (0 <= IZR d0)%R) by (apply IZR_le; lia).
  assert (H1 : (0 <= IZR d0 * (U * J))%R)
    by (apply Rmult_le_pos; [lra|apply Rmult_le_pos; lra]).
  assert (H2 : (0 <= IZR d0 * ((1 - U) * J))%R)
    by (apply Rmult_le_pos; [lra|apply Rmult_le_pos; lra]).
  assert (H3 : (0 <= IZR d0 * (3 / 10 - J))%R)
    by (apply Rmult_le_pos; lra).
  unfold within_15_percent. split; apply lt_IZR.
  - rewrite minus_IZR, !mult_IZR. lra.
  - rewrite plus_IZR, !mult_IZR. lra.
Qed.

(** X10.  With the default jitter factor 0.3 every value a run returns
    is within 15% of its nominal delay, up to one time unit, for every
    sequence of draws in [[0,1)], as long as the delays stay at or
    below [2^50] ns. *)
Theorem default_jitter_within_15_percent (n : nat) (w : World) :
  jitterFactor (self w) = defaultJitterFactor ->
  (forall k, unit_interval (stream (rng w) k) = true) ->
  0 <= delay (self w) <= 2 ^ 50 -> 0 < baseDelay (self w) <= 2 ^ 50 ->
  expLimit (self w) <= 2 ^ 49 ->
  Forall (fun pr => within_15_percent (fst pr) (snd pr)) (fst (rounds n w)).
Proof.
  intros Hj Hu Hd Hb HL. rewrite rounds_spec, Hj.
  apply Forall_map, Forall_forall. intros i _. simpl.
  apply jittered_within_15; [apply Hu|].
  apply nominal_in_range; lia.
Qed.

Lemma default_jitter_within_15_percent_witness :
  let w := mkWorld
             (CoerceNew [WithInitialDelay 0; WithBaseDelay (Millisecond * 500);
                         WithExponentialLimit (Second * 60)])
             (constant_source F64.zero) in
  (jitterFactor (self w) = defaultJitterFactor /\
   (forall k, unit_interval (stream (rng w) k) = true) /\
   0 <= delay (self w) <= 2 ^ 50 /\ 0 < baseDelay (self w) <= 2 ^ 50 /\
   expLimit (self w) <= 2 ^ 49) /\
  Forall (fun pr => within_15_percent (fst pr) (snd pr)) (fst (rounds 10 w)).
Proof.
  split.
  - split; [reflexivity|]. split; [intros k; reflexivity|].
    repeat split; vm_compute; congruence.
  - apply (default_jitter_within_15_percent 10
             (mkWorld
                (CoerceNew [WithInitialDelay 0;
                            WithBaseDelay (Millisecond * 500);
                            WithExponentialLimit (Second * 60)])
                (constant_source F64.zero))).
    + reflexivity.
    + intros k. reflexivity.
    + split; vm_compute; congruence.
    + split; vm_compute; congruence.
    + vm_compute. congruence.
Defined.

(** X11.  With jitter factor 0 a run returns its nominal delays
    exactly, whatever is drawn, as long as the delays stay at or below
    [2^53] ns. *)
Theorem no_jitter_returns_nominal (n : nat) (w : World) (s : bool) :
  jitterFactor (self w) = S754_zero s ->
  (forall k, unit_interval (stream (rng w) k) = true) ->
  0 <= delay (self w) <= 2 ^ 53 -> 0 < baseDelay (self w) <= 2 ^ 53 ->
  expLimit (self w) <= 2 ^ 52 ->
  fst (rounds n w) = map (fun d => (d, d)) (nominals n w).
Proof.
  intros Hj Hu Hd Hb HL.
  rewrite rounds_spec, nominals_spec, map_map, Hj.
  apply map_ext. intros i. f_equal.
  apply jittered_exact; [apply Hu|].
  apply nominal_in_range; lia.
Qed.

Lemma no_jitter_returns_nominal_witness :
  let w := mkWorld
             (CoerceNew [WithInitialDelay 2; WithExponentialLimit 64;
                         WithJitterFactor F64.zero])
             (constant_source F64.half) in
  (jitterFactor (self w) = S754_zero false /\
   (forall k, unit_interval (stream (rng w) k) = true) /\
   0 <= delay (self w) <= 2 ^ 53 /\ 0 < baseDelay (self w) <= 2 ^ 53 /\
   expLimit (self w) <= 2 ^ 52) /\
  fst (rounds 10 w) = map (fun d => (d, d)) (nominals 10 w).
Proof.
  split.
  - split; [reflexivity|]. split; [intros k; reflexivity|].
    repeat split; vm_compute; congruence.
  - apply (no_jitter_returns_nominal 10
             (mkWorld
                (CoerceNew [WithInitialDelay 2; WithExponentialLimit 64;
                            WithJitterFactor F64.zero])
                (constant_source F64.half)) false).
    + reflexivity.
    + intros k. reflexivity.
    + split; vm_compute; congruence.
    + split; vm_compute; congruence.
    + vm_compute. congruence.
Defined.

(** * Sleeping *)

Lemma time_Sleep_max (d : Duration) (clock : Z) :
  time_Sleep d clock = clock + Z.max 0 d.
Proof. unfold time_Sleep. destruct (Z.ltb_spec 0 d); lia. Qed.

Lemma Sleeps_spec (n : nat) :
  forall (w : World) (t : Z),
  Sleeps n (w, t) =
  (snd (advances n w), t + total (map (Z.max 0) (fst (advances n w)))).
Proof.
  induction n as [|n IH]; intros w t.
  - simpl. f_equal. lia.
  - rewrite (advances_S n w).
    change (Sleeps (S n) (w, t)) with (Sleeps n (Sleep (w, t))).
    unfold Sleep. cbn [fst snd].
    destruct (computeDelay w) as [d w1]. cbn [fst snd].
    rewrite IH, time_Sleep_max. f_equal.
    cbn [map total fold_right]. fold (total (map (Z.max 0) (fst (advances n w1)))).
    lia.
Qed.

(** X12.  Immediate first retry: when the nominal delay is 0, [Sleep]
    does not pause at all, for every jitter factor and draw in
    [[0,1)], and it leaves the nominal delay at the base delay. *)
Theorem Sleep_with_zero_delay_is_immediate (w : World) (t : Z) :
  delay (self w) = 0 ->
  unit_interval (jitterFactor (self w)) = true ->
  unit_interval (stream (rng w) (drawn (rng w))) = true ->
  snd (Sleep (w, t)) = t /\
  delay (self (fst (Sleep (w, t)))) = baseDelay (self w).
Proof.
  intros Hd Hj Hu. unfold Sleep. simpl fst. simpl snd.
  pose proof (computeDelay_returns w) as Hr.
  destruct (computeDelay_fields w) as (Hg & _).
  destruct (computeDelay w) as [d w1]. cbn [fst snd] in *.
  rewrite Hr, Hd, jittered_zero by assumption. split; [reflexivity|].
  rewrite Hg, Hd. reflexivity.
Qed.

Lemma Sleep_with_zero_delay_is_immediate_witness :
  let w := mkWorld (CoerceNew [WithInitialDelay 0; WithBaseDelay 500])
             (constant_source F64.half) in
  (delay (self w) = 0 /\
   unit_interval (jitterFactor (self w)) = true /\
   unit_interval (stream (rng w) (drawn (rng w))) = true) /\
  snd (Sleep (w, 1000)) = 1000 /\
  delay (self (fst (Sleep (w, 1000)))) = baseDelay (self w).
Proof.
  split.
  - repeat split; reflexivity.
  - apply (Sleep_with_zero_delay_is_immediate
             (mkWorld (CoerceNew [WithInitialDelay 0; WithBaseDelay 500])
                (constant_source F64.half)) 1000); reflexivity.
Defined.

Lemma total_map_ext_bounds (f g : nat -> Z) (l : list nat) :
  (forall i, 0 <= g i /\ within_15_percent (g i) (f i)) ->
  17 * total (map g l) - 20 * Z.of_nat (List.length l)
  <= 20 * total (map (fun i => Z.max 0 (f i)) l)
  <= 23 * total (map g l) + 20 * Z.of_nat (List.length l).
Proof.
  intros H. induction l as [|i l IH]; [simpl; lia|].
  specialize (H i). unfold within_15_percent in H.
  cbn [map total fold_right List.length]. fold (total (map g l)).
  fold (total (map (fun i => Z.max 0 (f i)) l)).
  rewrite Nat2Z.inj_succ. lia.
Qed.

(** X13.  With the default jitter factor, the time [n] calls of [Sleep]
    pause for in total is within 15% of the sum of the nominal delays,
    up to one time unit per call (delays at or below [2^50] ns, draws
    in [[0,1)]); the object ends as after [n] calls of
    [computeDelay]. *)
Theorem total_sleep_within_15_percent (n : nat) (w : World) (t : Z) :
  jitterFactor (self w) = defaultJitterFactor ->
  (forall k, unit_interval (stream (rng w) k) = true) ->
  0 <= delay (self w) <= 2 ^ 50 -> 0 < baseDelay (self w) <= 2 ^ 50 ->
  expLimit (self w) <= 2 ^ 49 ->
  fst (Sleeps n (w, t)) = snd (advances n w) /\
  17 * total (nominals n w) - 20 * Z.of_nat n
  <= 20 * (snd (Sleeps n (w, t)) - t)
  <= 23 * total (nominals n w) + 20 * Z.of_nat n.
Proof.
  intros Hj Hu Hd Hb HL. rewrite Sleeps_spec. cbn [fst snd].
  split; [reflexivity|].
  rewrite advances_returns, nominals_spec, map_map, Hj.
  replace (t + _ - t) with
    (total (map (fun i => Z.max 0
       (jittered (stream (rng w) (drawn (rng w) + i)%nat)
          defaultJitterFactor (nominal_at i w))) (seq 0 n))) by lia.
  pose proof (total_map_ext_bounds
    (fun i => jittered (stream (rng w) (drawn (rng w) + i)%nat)
                defaultJitterFactor (nominal_at i w))
    (fun i => nominal_at i w) (seq 0 n)) as H.
  rewrite length_seq in H. apply H. intros i.
  assert (Hi : 0 <= nominal_at i w <= 2 ^ 50)
    by (apply nominal_in_range; lia).
  split; [lia|].
  apply jittered_within_15; [apply Hu|assumption].
Qed.

Lemma total_sleep_within_15_percent_witness :
  let w := mkWorld
             (CoerceNew [WithInitialDelay 0; WithBaseDelay (Millisecond * 500);
                         WithExponentialLimit (Second * 60)])
             (constant_source F64.zero) in
  (jitterFactor (self w) = defaultJitterFactor /\
   (forall k, unit_interval (stream (rng w) k) = true) /\
   0 <= delay (self w) <= 2 ^ 50 /\ 0 < baseDelay (self w) <= 2 ^ 50 /\
   expLimit (self w) <= 2 ^ 49) /\
  fst (Sleeps 10 (w, 0)) = snd (advances 10 w) /\
  17 * total (nominals 10 w) - 20 * Z.of_nat 10
  <= 20 * (snd (Sleeps 10 (w, 0)) - 0)
  <= 23 * total (nominals 10 w) + 20 * Z.of_nat 10.
Proof.
  split.
  - split; [reflexivity|]. split; [intros k; reflexivity|].
    repeat split; vm_compute; congruence.
  - apply (total_sleep_within_15_percent 10
             (mkWorld
                (CoerceNew [WithInitialDelay 0;
                            WithBaseDelay (Millisecond * 500);
                            WithExponentialLimit (Second * 60)])
                (constant_source F64.zero)) 0).
    + reflexivity.
    + intros k. reflexivity.
    + split; vm_compute; congruence.
    + split; vm_compute; congruence.
    + vm_compute. congruence.
Defined.

(** * The limit on the doubling chain, and the base delay *)

(** X14.  When the limit is the base delay times a power of two, the
    delay stops exactly at the limit: from initial delay 0 the nominal
    sequence is [0, b, 2b, 4b, ...] cut off at the limit, which is what
    clamping at the limit would give. *)
Theorem limit_on_chain_is_reached_exactly
  (n : nat) (w : World) (b : Duration) (k : nat) :
  delay (self w) = 0 -> baseDelay (self w) = b ->
  expLimit (self w) = b * 2 ^ Z.of_nat k ->
  0 < b -> b * 2 ^ Z.of_nat k <= 2 ^ 62 ->
  nominals n w = map (clamped_nominal b (b * 2 ^ Z.of_nat k)) (seq 0 n).
Proof.
  intros Hd Hbase HL Hb Hmax. rewrite nominals_spec.
  apply map_ext. intros [|i].
  - unfold nominal_at. simpl. exact Hd.
  - rewrite nominal_at_S.
    destruct (computeDelay_fields w) as (E1 & _ & E3 & _).
    rewrite (nominal_at_growing b (b * 2 ^ Z.of_nat k) k Hb Hmax
               ltac:(lia)) with (j := O).
    + unfold clamped_nominal. simpl Nat.add.
      destruct (Nat.le_ge_cases i k) as [Hik|Hik].
      * rewrite Nat.min_l by assumption.
        assert (2 ^ Z.of_nat i <= 2 ^ Z.of_nat k)
          by (apply Z.pow_le_mono_r; lia).
        nia.
      * rewrite Nat.min_r by assumption.
        assert (2 ^ Z.of_nat k <= 2 ^ Z.of_nat i)
          by (apply Z.pow_le_mono_r; lia).
        nia.
    + intros j Hj.
      assert (2 ^ Z.of_nat j < 2 ^ Z.of_nat k)
        by (apply Z.pow_lt_mono_r; lia).
      nia.
    + lia.
    + rewrite E1, Hd, Hbase. unfold grow. simpl. lia.
    + congruence.
Qed.

Lemma limit_on_chain_is_reached_exactly_witness :
  let w := mkWorld
             (CoerceNew [WithInitialDelay 0; WithBaseDelay 2;
                         WithExponentialLimit 64])
             (constant_source F64.half) in
  (delay (self w) = 0 /\ baseDelay (self w) = 2 /\
   expLimit (self w) = 2 * 2 ^ Z.of_nat 5 /\
   0 < 2 /\ 2 * 2 ^ Z.of_nat 5 <= 2 ^ 62) /\
  nominals 10 w = map (clamped_nominal 2 (2 * 2 ^ Z.of_nat 5)) (seq 0 10).
Proof.
  split.
  - repeat split; vm_compute; congruence.
  - apply (limit_on_chain_is_reached_exactly 10
             (mkWorld
                (CoerceNew [WithInitialDelay 0; WithBaseDelay 2;
                            WithExponentialLimit 64])
                (constant_source F64.half)) 2 5); vm_compute; congruence.
Defined.

Lemma nominal_at_positive (n : nat) (w : World) :
  0 < delay (self w) -> expLimit (self w) <= 2 ^ 62 ->
  0 < nominal_at n w.
Proof.
  intros Hd HL. induction n as [|n IH].
  - unfold nominal_at. simpl. exact Hd.
  - rewrite nominal_at_next.
    set (d := nominal_at n w) in *.
    unfold grow, Int64.mul.
    destruct (Z.eqb_spec d 0); [lia|].
    destruct (Z.ltb_spec d (expLimit (self w))); [|lia].
    rewrite wrap_small; lia.
Qed.

Lemma nominal_at_without_base (n : nat) (w1 w2 : World) :
  delay (self w1) = delay (self w2) -> 0 < delay (self w1) ->
  expLimit (self w1) = expLimit (self w2) -> expLimit (self w1) <= 2 ^ 62 ->
  nominal_at n w1 = nominal_at n w2.
Proof.
  intros Hd Hpos HL Hmax. induction n as [|n IH].
  - unfold nominal_at. simpl. exact Hd.
  - rewrite !nominal_at_next, <- IH, <- HL.
    pose proof (nominal_at_positive n w1 Hpos Hmax) as Hp.
    unfold grow.
    destruct (Z.eqb_spec (nominal_at n w1) 0); [lia|reflexivity].
Qed.

(** X15.  The base delay is only used when the delay is 0: two objects
    with the same positive initial delay, limit (at most [2^62] ns) and
    jitter factor, fed the same draws, go through the same nominal and
    returned delays whatever their base delays are. *)
Theorem base_delay_unused_when_delay_positive (n : nat) (w1 w2 : World) :
  delay (self w1) = delay (self w2) -> 0 < delay (self w1) ->
  expLimit (self w1) = expLimit (self w2) -> expLimit (self w1) <= 2 ^ 62 ->
  jitterFactor (self w1) = jitterFactor (self w2) ->
  rng w1 = rng w2 ->
  fst (rounds n w1) = fst (rounds n w2).
Proof.
  intros Hd Hpos HL Hmax Hj Hr. rewrite !rounds_spec, Hj, Hr.
  apply map_ext. intros i.
  now rewrite (nominal_at_without_base i w1 w2).
Qed.

Lemma base_delay_unused_when_delay_positive_witness :
  let w1 := mkWorld (CoerceNew [WithInitialDelay 1; WithBaseDelay 200])
              (constant_source F64.zero) in
  let w2 := mkWorld (CoerceNew [WithInitialDelay 1; WithBaseDelay 7])
              (constant_source F64.zero) in
  (delay (self w1) = delay (self w2) /\ 0 < delay (self w1) /\
   expLimit (self w1) = expLimit (self w2) /\
   expLimit (self w1) <= 2 ^ 62 /\
   jitterFactor (self w1) = jitterFactor (self w2) /\ rng w1 = rng w2) /\
  fst (rounds 12 w1) = fst (rounds 12 w2).
Proof.
  split.
  - repeat split; vm_compute; congruence.
  - apply (base_delay_unused_when_delay_positive 12
             (mkWorld (CoerceNew [WithInitialDelay 1; WithBaseDelay 200])
                (constant_source F64.zero))
             (mkWorld (CoerceNew [WithInitialDelay 1; WithBaseDelay 7])
                (constant_source F64.zero))); vm_compute; congruence.
Defined.

(** The trace of the package comment: with initial delay 0, base delay
    500ms, limit 60s and the default jitter, every source of draws in
    [[0,1)] gives pauses within 15% of 0, 0.5, 1, 2, 4, 8, 16, 32, 64
    and 64 seconds. *)
Example documented_trace (r : RandSource) :
  (forall k, unit_interval (stream r k) = true) ->
  let w := mkWorld
             (CoerceNew [WithInitialDelay 0; WithBaseDelay (Millisecond * 500);
                         WithExponentialLimit (Second * 60)]) r in
  map fst (fst (rounds 10 w)) =
    map (fun ms => Millisecond * ms)
      [0; 500; 1000; 2000; 4000; 8000; 16000; 32000; 64000; 64000] /\
  Forall (fun pr => within_15_percent (fst pr) (snd pr)) (fst (rounds 10 w)).
Proof.
  intros Hu w. split.
  - change (map fst (fst (rounds 10 w))) with (nominals 10 w).
    rewrite nominals_spec. reflexivity.
  - rewrite rounds_spec. apply Forall_map, Forall_forall. intros i _.
    cbn [fst snd].
    apply jittered_within_15; [apply Hu|].
    apply nominal_in_range; vm_compute; try split; congruence.
Qed.
